(** * Old-India-Photos: the feed-to-index merge engine (merge_feed_to_index.py)

    A shallow embedding of the two-stage matcher of [merge_feed_to_index.py]:
    text normalisation and synonym folding, aggregation of the scraped image
    records into candidate posts, post and image scoring, and the merge loop
    with its override table, counters and review rows.

    Conventions of the embedding.
    - A Python [str] is a Rocq [string]; a character is a code point below 256
      (ASCII and Latin-1), with Python's [str.isspace], [str.lower] and the
      regular-expression classes [\s], [\d], [\w] restricted to that range.
    - A Python [float] score is an exact rational ([Q]): the weights are the
      decimal constants of the source and sums are taken in the source's
      order, without binary rounding.
    - A JSON field that may be missing or [null] and that the source always
      reads through [or ""], [or []], [or 0] or [normalize] is a plain value
      with the empty string, the empty list or zero standing for "absent".
      Fields have the types of the data model (strings, lists of strings,
      integers); integers are unbounded ([Z]).
    - An exception is [None]: the only call of the merge loop that can raise
      on such data is [urlparse], inside [image_score].
    - [difflib.SequenceMatcher.ratio], [urllib.parse.urlparse] and
      [pathlib.Path.name] are library code: the engine is parametrised by
      them (Section [Engine]); module [PyLib] gives reference models used to
      run the engine on concrete inputs. *)

From Stdlib Require Import ZArith QArith Qround Qminmax List String Ascii Bool Lia Lqa.
From Stdlib Require Import Sorting.Sorted Sorting.Permutation.
Import ListNotations.

Open Scope string_scope.
Open Scope Z_scope.

(** ** Python built-ins on strings *)
Module Py.

Definition code (c : ascii) : nat := nat_of_ascii c.

Definition between (lo hi : nat) (c : ascii) : bool :=
  (lo <=? code c)%nat && (code c <=? hi)%nat.

(** [str.isspace] / regex [\s] on code points below 256. *)
Definition is_space (c : ascii) : bool :=
  between 9 13 c || between 28 32 c || (code c =? 133)%nat || (code c =? 160)%nat.

(** regex [\d]: decimal digits (category Nd). *)
Definition is_digit (c : ascii) : bool := between 48 57 c.

Definition is_lower_az (c : ascii) : bool := between 97 122 c.

(** the class [a-z0-9]. *)
Definition is_az09 (c : ascii) : bool := is_lower_az c || is_digit c.

(** regex [\w]: [str.isalnum] or underscore, on code points below 256. *)
Definition is_word (c : ascii) : bool :=
  is_digit c || between 65 90 c || is_lower_az c || (code c =? 95)%nat
  || (code c =? 170)%nat || (code c =? 178)%nat || (code c =? 179)%nat
  || (code c =? 181)%nat || (code c =? 185)%nat || (code c =? 186)%nat
  || between 188 190 c || between 192 214 c || between 216 246 c
  || between 248 255 c.

(** [str.lower] on one code point. *)
Definition lower_char (c : ascii) : ascii :=
  if between 65 90 c || between 192 214 c || between 216 222 c
  then ascii_of_nat (code c + 32) else c.

Fixpoint smap (f : ascii -> ascii) (s : string) : string :=
  match s with
  | EmptyString => EmptyString
  | String c r => String (f c) (smap f r)
  end.

Definition lower (s : string) : string := smap lower_char s.

Fixpoint sforall (p : ascii -> bool) (s : string) : bool :=
  match s with
  | EmptyString => true
  | String c r => p c && sforall p r
  end.

(** truthiness of a string: non-empty. *)
Definition truthy (s : string) : bool :=
  match s with EmptyString => false | _ => true end.

Fixpoint lstrip (s : string) : string :=
  match s with
  | EmptyString => EmptyString
  | String c r => if is_space c then lstrip r else s
  end.

Fixpoint rstrip (s : string) : string :=
  match s with
  | EmptyString => EmptyString
  | String c r =>
      match rstrip r with
      | EmptyString => if is_space c then EmptyString else String c EmptyString
      | r' => String c r'
      end
  end.

(** [str.strip()]. *)
Definition strip (s : string) : string := rstrip (lstrip s).

(** [str.split()] without argument: the maximal runs of non-space characters. *)
Fixpoint split (s : string) : list string :=
  match s with
  | EmptyString => []
  | String c r =>
      if is_space c then split r
      else match r with
           | EmptyString => [String c EmptyString]
           | String d _ =>
               if is_space d then String c EmptyString :: split r
               else match split r with
                    | w :: ws => String c w :: ws
                    | [] => [String c EmptyString]
                    end
           end
  end.

(** [sep.join(l)]. *)
Definition join (sep : string) (l : list string) : string := String.concat sep l.

(** [s.startswith(p)]. *)
Fixpoint starts_with (p s : string) : bool :=
  match p, s with
  | EmptyString, _ => true
  | String a p', String b s' => Ascii.eqb a b && starts_with p' s'
  | _, _ => false
  end.

(** [p in s] for strings. *)
Fixpoint contains (p s : string) : bool :=
  starts_with p s ||
  match s with
  | EmptyString => false
  | String _ r => contains p r
  end.

(** [s[n:]] and [s[:n]]. *)
Fixpoint drop (n : nat) (s : string) : string :=
  match n, s with
  | O, _ => s
  | S k, String _ r => drop k r
  | S _, EmptyString => EmptyString
  end.

Fixpoint take (n : nat) (s : string) : string :=
  match n, s with
  | O, _ => EmptyString
  | S k, String c r => String c (take k r)
  | S _, EmptyString => EmptyString
  end.

(** [int(s)] for a string of decimal digits. *)
Definition digit_val (c : ascii) : Z := Z.of_nat (code c - 48).

Fixpoint int_of_digits_acc (acc : Z) (s : string) : Z :=
  match s with
  | EmptyString => acc
  | String c r => int_of_digits_acc (10 * acc + digit_val c) r
  end.

Definition int_of_digits (s : string) : Z := int_of_digits_acc 0 s.

(** membership in a list of strings, as a boolean. *)
Definition mem (x : string) (l : list string) : bool :=
  existsb (String.eqb x) l.

(** [set(l)] as a duplicate-free list of the elements of [l]. *)
Fixpoint dedup (l : list string) : list string :=
  match l with
  | [] => []
  | x :: r => if mem x r then dedup r else x :: dedup r
  end.

(** [len(set(a) & set(b))] and [len(set(a) | set(b))]. *)
Definition inter_size (a b : list string) : nat :=
  List.length (filter (fun x => mem x b) (dedup a)).

Definition union_size (a b : list string) : nat :=
  List.length (dedup (a ++ b)).

(** [max(a, b)] and [min(a, b)] of two numbers: the first argument unless the
    second is strictly greater (smaller). *)
Definition qlt (a b : Q) : bool := negb (Qle_bool b a).

Definition max (a b : Q) : Q := if qlt a b then b else a.
Definition min (a b : Q) : Q := if qlt b a then b else a.

(** [round(x, nd)]: the nearest multiple of [10^-nd], ties to even. *)
Definition round_half_even (x : Q) : Z :=
  let f := Qfloor x in
  let r := (x - inject_Z f)%Q in
  match Qcompare r (1 # 2) with
  | Lt => f
  | Gt => f + 1
  | Eq => if Z.even f then f else f + 1
  end.

Definition round (x : Q) (nd : nat) : Q :=
  let p := Z.pow 10 (Z.of_nat nd) in
  (inject_Z (round_half_even (x * inject_Z p)) / inject_Z p)%Q.

End Py.

(** ** Reference models of the library functions the engine calls

    These follow CPython's [difflib], [urllib.parse] and [pathlib] on the
    inputs the engine gives them; they instantiate the parameters of Section
    [Engine] when the engine is run on concrete data. *)
Module PyLib.

(** *** [difflib.SequenceMatcher(None, a, b).ratio()] *)

(** [autojunk]: when [b] has 200 elements or more, an element occurring more
    than [len(b) // 100 + 1] times is dropped from the index [b2j]. *)
Definition popular (b : list ascii) (x : ascii) : bool :=
  (200 <=? List.length b)%nat &&
  (List.length b / 100 + 1 <? count_occ ascii_dec b x)%nat.

(** One pass of the inner loop of [find_longest_match] for [a[i]]: the new
    [j2len], as a list indexed by [j] with 0 where the dictionary has no key. *)
Definition dp_row (b : list ascii) (ai : ascii) (blo bhi : nat) (prev : list nat)
  : list nat :=
  map (fun j =>
         if (blo <=? j)%nat && (j <? bhi)%nat
            && Ascii.eqb (nth j b zero) ai && negb (popular b ai)
         then S (match j with O => O | S j' => nth j' prev O end)
         else O)
      (seq 0 (List.length b)).

Definition scan_row (i : nat) (row : list nat) (best : nat * nat * nat)
  : nat * nat * nat :=
  fold_left
    (fun bst jk =>
       let '(j, k) := jk in
       let '(_, _, bs) := bst in
       if (bs <? k)%nat then (i + 1 - k, j + 1 - k, k)%nat else bst)
    (combine (seq 0 (List.length row)) row) best.

Definition longest_dp (a b : list ascii) (alo ahi blo bhi : nat) : nat * nat * nat :=
  snd (fold_left
         (fun st i =>
            let '(j2len, best) := st in
            let row := dp_row b (nth i a zero) blo bhi j2len in
            (row, scan_row i row best))
         (seq alo (ahi - alo))
         (repeat O (List.length b), (alo, blo, O))).

Fixpoint extend_left (fuel : nat) (a b : list ascii) (alo blo : nat)
  (m : nat * nat * nat) : nat * nat * nat :=
  match fuel with
  | O => m
  | S f =>
      let '(i, j, k) := m in
      if (alo <? i)%nat && (blo <? j)%nat
         && Ascii.eqb (nth (i - 1) a zero) (nth (j - 1) b zero)
      then extend_left f a b alo blo (i - 1, j - 1, S k)%nat
      else m
  end.

Fixpoint extend_right (fuel : nat) (a b : list ascii) (ahi bhi : nat)
  (m : nat * nat * nat) : nat * nat * nat :=
  match fuel with
  | O => m
  | S f =>
      let '(i, j, k) := m in
      if (i + k <? ahi)%nat && (j + k <? bhi)%nat
         && Ascii.eqb (nth (i + k) a zero) (nth (j + k) b zero)
      then extend_right f a b ahi bhi (i, j, S k)
      else m
  end.

Definition find_longest_match (a b : list ascii) (alo ahi blo bhi : nat)
  : nat * nat * nat :=
  let n := List.length a in
  extend_right n a b ahi bhi (extend_left n a b alo blo (longest_dp a b alo ahi blo bhi)).

(** [get_matching_blocks], summed: the total size of the matching blocks. *)
Fixpoint matches (fuel : nat) (a b : list ascii) (alo ahi blo bhi : nat) : nat :=
  match fuel with
  | O => O
  | S f =>
      let '(i, j, k) := find_longest_match a b alo ahi blo bhi in
      match k with
      | O => O
      | _ =>
          (k
           + (if (alo <? i) && (blo <? j) then matches f a b alo i blo j else O)
           + (if (i + k <? ahi) && (j + k <? bhi)
              then matches f a b (i + k) ahi (j + k) bhi else O))%nat
      end
  end.

Definition ratio (sa sb : string) : Q :=
  let a := list_ascii_of_string sa in
  let b := list_ascii_of_string sb in
  let la := List.length a in
  let lb := List.length b in
  match (la + lb)%nat with
  | O => 1%Q
  | S n =>
      (inject_Z (2 * Z.of_nat (matches (S la) a b 0 la 0 lb))
       / inject_Z (Z.of_nat (S n)))%Q
  end.

(** *** [urllib.parse.urlparse(u)]: the [netloc] and [path] components, or
    [None] where it raises [ValueError] (an unbalanced bracket in the
    network location).  The URL is taken as it is: the removal of leading
    control characters and of tabs and newlines, and the checks on non-ASCII
    and bracketed hosts of recent CPython versions, are left out. *)

Definition is_scheme_char (c : ascii) : bool :=
  Py.between 97 122 c || Py.between 65 90 c || Py.is_digit c
  || Ascii.eqb c "+" || Ascii.eqb c "-" || Ascii.eqb c ".".

(** [s.split(c, 1)]: the text before the first [c] and, when there is one,
    the text after it. *)
Fixpoint cut_at (p : ascii -> bool) (s : string) : string * option string :=
  match s with
  | EmptyString => (EmptyString, None)
  | String c r =>
      if p c then (EmptyString, Some r)
      else let '(h, t) := cut_at p r in (String c h, t)
  end.

(** the text before the first character satisfying [p], and the rest from it. *)
Fixpoint span_until (p : ascii -> bool) (s : string) : string * string :=
  match s with
  | EmptyString => (EmptyString, EmptyString)
  | String c r =>
      if p c then (EmptyString, s)
      else let '(h, t) := span_until p r in (String c h, t)
  end.

Definition has_char (c : ascii) (s : string) : bool :=
  negb (Py.sforall (fun d => negb (Ascii.eqb c d)) s).

Definition uses_params : list string :=
  [""; "ftp"; "hdl"; "prospero"; "http"; "imap"; "https"; "shttp"; "rtsp";
   "rtspu"; "sip"; "sips"; "mms"; "sftp"; "tel"].

Definition split_scheme (u : string) : string * string :=
  match cut_at (Ascii.eqb ":") u with
  | (String c0 r0 as sch, Some rest) =>
      if (Py.between 97 122 c0 || Py.between 65 90 c0) && Py.sforall is_scheme_char sch
      then (Py.lower sch, rest) else (EmptyString, u)
  | _ => (EmptyString, u)
  end.

(** [rfind("/")] followed by [find(";")]: the segment after the last slash
    is cut at its first semicolon. *)
Fixpoint split_params (s : string) : string :=
  match s with
  | EmptyString => EmptyString
  | String c r =>
      if has_char "/" r then String c (split_params r)
      else if Ascii.eqb c "/" then String c (fst (cut_at (Ascii.eqb ";") r))
      else fst (cut_at (Ascii.eqb ";") s)
  end.

Definition urlparse (u : string) : option (string * string) :=
  let '(scheme, rest) := split_scheme u in
  let '(netloc, rest1) :=
    if Py.starts_with "//" rest
    then span_until (fun c => Ascii.eqb c "/" || Ascii.eqb c "?" || Ascii.eqb c "#")
                    (Py.drop 2 rest)
    else (EmptyString, rest) in
  if xorb (has_char "[" netloc) (has_char "]" netloc) then None
  else
    let path0 := fst (cut_at (Ascii.eqb "?") (fst (cut_at (Ascii.eqb "#") rest1))) in
    let path := if Py.mem scheme uses_params && has_char ";" path0
                then split_params path0 else path0 in
    Some (netloc, path).

(** *** [pathlib.Path(p).name] on a POSIX path: the last component that is
    neither empty nor a single dot. *)
Fixpoint components (cur : string) (s : string) : list string :=
  match s with
  | EmptyString => [cur]
  | String c r =>
      if Ascii.eqb c "/" then cur :: components EmptyString r
      else components (cur ++ String c EmptyString) r
  end.

Definition path_name (p : string) : string :=
  last (filter (fun c => negb (String.eqb c "" || String.eqb c "."))
               (components EmptyString p))
       EmptyString.

End PyLib.

(** ** Text normalizer (constants & helpers of the source) *)

Import Py.

Definition ALLOWED_HOSTS : list string :=
  ["bp.blogspot.com"; "1.bp.blogspot.com"; "2.bp.blogspot.com";
   "3.bp.blogspot.com"; "4.bp.blogspot.com";
   "blogger.googleusercontent.com";
   "lh3.googleusercontent.com"; "lh4.googleusercontent.com";
   "lh5.googleusercontent.com"; "lh6.googleusercontent.com";
   "live.staticflickr.com"].

Definition IMG_EXTS : list string := ["jpg"; "jpeg"; "png"; "webp"; "gif"].

Definition SYNONYMS : list (string * string) :=
  [("bombay", "mumbai"); ("calcutta", "kolkata"); ("benaras", "varanasi");
   ("benares", "varanasi"); ("poona", "pune"); ("madras", "chennai");
   ("baroda", "vadodara"); ("cawnpore", "kanpur");
   ("trivandrum", "thiruvananthapuram"); ("travancore", "kerala");
   ("mysore", "mysuru"); ("banaras", "varanasi");
   ("hindu", "indian"); ("hindustan", "india")].

Definition ROMAN_MAP : list (string * Z) :=
  [("i", 1); ("ii", 2); ("iii", 3); ("iv", 4); ("v", 5); ("vi", 6);
   ("vii", 7); ("viii", 8); ("ix", 9); ("x", 10)].

(** [d.get(k)] on a dictionary literal. *)
Fixpoint dict_get {V : Type} (d : list (string * V)) (k : string) : option V :=
  match d with
  | [] => None
  | (k', v) :: r => if String.eqb k k' then Some v else dict_get r k
  end.

(** [re.sub(cls+, " ", s)]: every maximal run of characters of the class
    becomes one space ([in_run] tells that the previous character was in it). *)
Fixpoint sub_runs (cls : ascii -> bool) (in_run : bool) (s : string) : string :=
  match s with
  | EmptyString => EmptyString
  | String c r =>
      if cls c
      then if in_run then sub_runs cls true r else String " " (sub_runs cls true r)
      else String c (sub_runs cls false r)
  end.

(** the negated class [[^a-z0-9\s]]. *)
Definition not_az09_space (c : ascii) : bool := negb (is_az09 c || is_space c).

(** [re.sub(r"[^a-z0-9\s]", " ", s)]: character by character. *)
Definition blank_other (s : string) : string :=
  smap (fun c => if not_az09_space c then " "%char else c) s.

Definition normalize (s : string) : string := sub_runs is_space false (strip s).

(** the synonym of one token: [SYNONYMS.get(t, t)]. *)
Definition synonym (t : string) : string :=
  match dict_get SYNONYMS t with Some v => v | None => t end.

Definition apply_synonyms_tokenwise (text : string) : string :=
  let toks := split (blank_other (lower text)) in
  let out := map synonym toks in
  join " " out.

(** a regular expression that is a fixed sequence of character classes,
    matched at the start of [s]: the rest of [s] after the match. *)
Fixpoint match_classes (p : list (ascii -> bool)) (s : string) : option string :=
  match p, s with
  | [], _ => Some s
  | q :: p', String c r => if q c then match_classes p' r else None
  | _ :: _, EmptyString => None
  end.

Definition is_char (a : ascii) (c : ascii) : bool := Ascii.eqb a c.

(** [\d{4}-\d{2}-\d{2}]. *)
Definition DATE_CLASSES : list (ascii -> bool) :=
  [is_digit; is_digit; is_digit; is_digit; is_char "-";
   is_digit; is_digit; is_char "-"; is_digit; is_digit].

(** [re.sub(r"^\d{4}-\d{2}-\d{2}\s+", "", s)]. *)
Definition drop_leading_date (s : string) : string :=
  match match_classes DATE_CLASSES s with
  | Some (String c r) => if is_space c then lstrip r else s
  | _ => s
  end.

Definition slugify (text : string) : string :=
  let s := lower (normalize text) in
  let s := drop_leading_date s in
  let s := sub_runs not_az09_space false s in
  let s := strip (sub_runs is_space false s) in
  apply_synonyms_tokenwise s.

Definition tokens (s : string) : list string :=
  filter (fun t => (2 <? String.length t)%nat) (split (blank_other (lower s))).

Definition jaccard (a b : string) : Q :=
  let A := tokens a in
  let B := tokens b in
  match A, B with
  | [], _ => 0%Q
  | _, [] => 0%Q
  | _, _ => (inject_Z (Z.of_nat (inter_size A B))
             / inject_Z (Z.of_nat (union_size A B)))%Q
  end.

(** regex [$] without MULTILINE: the end of the string, or just before a
    final newline. *)
Definition NEWLINE : ascii := ascii_of_nat 10.

Definition at_end (s : string) : bool :=
  match s with
  | EmptyString => true
  | String c EmptyString => Ascii.eqb c NEWLINE
  | _ => false
  end.

(** regex [\b] between the previous character (if any) and the rest. *)
Definition is_word_opt (c : option ascii) : bool :=
  match c with Some x => is_word x | None => false end.

Definition head_char (s : string) : option ascii :=
  match s with EmptyString => None | String c _ => Some c end.

Definition word_boundary (prev : option ascii) (s : string) : bool :=
  xorb (is_word_opt prev) (is_word_opt (head_char s)).

(** [re.search]: the match at the leftmost position that has one. *)
Fixpoint search {A : Type} (m : option ascii -> string -> option A)
  (prev : option ascii) (s : string) : option A :=
  match m prev s with
  | Some v => Some v
  | None =>
      match s with
      | EmptyString => None
      | String c r => search m (Some c) r
      end
  end.

(** the common prefix [\bpart\b\s*[-:]?\s*] of the two part patterns: the
    text after it. *)
Definition part_prefix (prev : option ascii) (s : string) : option string :=
  if word_boundary prev s && starts_with "part" s
  then
    let r := drop 4 s in
    if word_boundary (Some "t"%char) r
    then
      let r1 := lstrip r in
      let r2 := match r1 with
                | String c r' => if is_char "-" c || is_char ":" c then r' else r1
                | EmptyString => r1
                end in
      Some (lstrip r2)
    else None
  else None.

(** [(\d{1,2})\b] *)
Definition part_digits (s : string) : option Z :=
  match s with
  | String d1 (String d2 r) =>
      if is_digit d1 && is_digit d2 && negb (is_word_opt (head_char r))
      then Some (int_of_digits (String d1 (String d2 EmptyString)))
      else if is_digit d1 && negb (is_word d2)
      then Some (int_of_digits (String d1 EmptyString))
      else None
  | String d1 EmptyString =>
      if is_digit d1 then Some (int_of_digits (String d1 EmptyString)) else None
  | EmptyString => None
  end.

(** [(i|ii|iii|iv|v|vi|vii|viii|ix|x)\b]: the alternatives in order. *)
Fixpoint part_roman (alts : list (string * Z)) (s : string) : option string :=
  match alts with
  | [] => None
  | (a, _) :: rest =>
      if starts_with a s && negb (is_word_opt (head_char (drop (String.length a) s)))
      then Some a
      else part_roman rest s
  end.

Definition bind_opt {A B : Type} (o : option A) (f : A -> option B) : option B :=
  match o with Some x => f x | None => None end.

Definition extract_part_number (text : string) : option Z :=
  let s := lower text in
  match search (fun prev t => bind_opt (part_prefix prev t) part_digits) None s with
  | Some n => Some n
  | None =>
      match search (fun prev t => bind_opt (part_prefix prev t) (part_roman ROMAN_MAP))
                   None s with
      | Some g => dict_get ROMAN_MAP g
      | None => None
      end
  end.

(** [/(\d{4})/(\d{2})/] *)
Definition URL_DATE_CLASSES : list (ascii -> bool) :=
  [is_char "/"; is_digit; is_digit; is_digit; is_digit; is_char "/";
   is_digit; is_digit; is_char "/"].

Definition extract_year_month_from_post_url (u : string)
  : option string * option string :=
  match search (fun _ t => match match_classes URL_DATE_CLASSES t with
                           | Some _ => Some (take 4 (drop 1 t), take 2 (drop 6 t))
                           | None => None
                           end) None u with
  | Some (y, m) => (Some y, Some m)
  | None => (None, None)
  end.

Definition year_month_from_index_date (d : string) : option string * option string :=
  if negb (truthy d) then (None, None)
  else match match_classes DATE_CLASSES d with
       | Some _ => (Some (take 4 d), Some (take 2 (drop 5 d)))
       | None => (None, None)
       end.

Definition decade_tag (year : option string) : option string :=
  match year with
  | None => None
  | Some y =>
      if negb (truthy y) then None
      else match match_classes [is_digit; is_digit; is_digit; is_digit] y with
           | Some r => if at_end r then Some (take 3 y ++ "0s") else None
           | None => None
           end
  end.

(** [\.(?:jpg|jpeg|png|webp|gif)] followed by [tail]: the text after the
    extension, for the first alternative that lets the whole pattern match. *)
Fixpoint ext_then (exts : list string) (tail : string -> bool) (s : string)
  : option string :=
  match exts with
  | [] => None
  | e :: rest =>
      let r := drop (String.length e) s in
      if starts_with e s && tail r then Some r else ext_then rest tail s
  end.

Definition dot_ext (tail : string -> bool) (s : string) : option string :=
  match s with
  | String c r => if is_char "." c then ext_then IMG_EXTS tail r else None
  | EmptyString => None
  end.

(** [(\d{1,3})\.(?:jpg|jpeg|png|webp|gif)$] at one position: the digits are
    taken greedily, three, then two, then one. *)
Definition number_here (s : string) : option Z :=
  let try k :=
    if (String.length (take k s) =? k)%nat && sforall is_digit (take k s)
    then match dot_ext at_end (drop k s) with
         | Some _ => Some (int_of_digits (take k s))
         | None => None
         end
    else None in
  match try 3%nat with
  | Some n => Some n
  | None => match try 2%nat with
            | Some n => Some n
            | None => try 1%nat
            end
  end.

Definition number_from_orig_filename (s : string) : option Z :=
  search (fun _ t => number_here t) None (lower s).

(** [re.sub(r"\.(jpg|jpeg|png|webp|gif)$", "", base, flags=re.I)]: the
    extension at the end is removed (a final newline after it stays). *)
Fixpoint strip_ext (s : string) : string :=
  match s with
  | EmptyString => EmptyString
  | String c r =>
      match dot_ext at_end (lower s) with
      | Some rest => rest
      | None => String c (strip_ext r)
      end
  end.

(** [IMG_EXT_RE.search(u)]: [\.(jpg|jpeg|png|webp|gif)(?:\?|$)], ignoring case. *)
Definition query_or_end (r : string) : bool :=
  match r with
  | String c _ => is_char "?" c || at_end r
  | EmptyString => true
  end.

Definition img_ext_search (u : string) : bool :=
  match search (fun _ t => dot_ext query_or_end t) None (lower u) with
  | Some _ => true
  | None => false
  end.

Definition prefer_original (u : string) : Q :=
  let s := 0%Q in
  let s := if contains "/s0/" u then (s + 0.2)%Q else s in
  let s := if contains "imgmax=0" u then (s + 0.2)%Q else s in
  s.

(** ** Data model *)

(** One entry of the site index (the keys the engine reads). *)
Record LocalRecord := {
  l_id : string;
  l_folder : string;
  l_title : string;
  l_orig_filename : string;
  l_file : string;
  l_tags : list string;
  l_date : string;
  l_year : string
}.

(** One row of the scraped per-image metadata. *)
Record RemoteImageRecord := {
  r_post_url : string;
  r_post_title : string;
  r_post_date : string;
  r_labels : list string;
  r_source : string;
  r_description : string;
  r_image_url : string;
  r_alt : string;
  r_caption : string;
  r_position_in_post : Z
}.

(** An element of [post["images"]]. *)
Record Image := {
  im_url : string;
  im_alt : string;
  im_caption : string;
  im_pos : Z
}.

(** A value of [post_map]. *)
Record PostEntry := {
  pe_post_title : string;
  pe_post_date : string;
  pe_labels : list string;
  pe_source : string;
  pe_description : string;
  pe_images : list Image
}.

(** An element of [posts]. *)
Record CandidatePost := {
  post_url : string;
  post_title : string;
  post_slug : string;
  post_date : string;
  post_y : option string;
  post_m : option string;
  post_decade : option string;
  labels : list string;
  source : string;
  description : string;
  images : list Image;
  post_part : option Z
}.

(** A row of overrides.csv, with [image_pos] already read: [None] for an
    empty or unparsable cell. *)
Record OverrideRow := {
  o_folder : string;
  o_title : string;
  o_post_url : string;
  o_image_pos : option Z
}.

(** A value of [overrides]. *)
Record Override := {
  ov_post_url : string;
  ov_image_pos : option Z
}.

(** The named components [post_score] returns next to the score. *)
Record Breakdown := {
  jac : Q; fuz : Q; dy : Q; dboost : Q; lob : Q; pbonus : Q
}.

(** An element of [merged]: the index entry with the match fields added. *)
Record MergedRecord := {
  m_item : LocalRecord;
  m_image_url : option string;
  m_post_url : option string;
  m_post_title : option string;
  m_post_labels : option (list string);
  m_post_source : option string;
  m_post_description : option string;
  match_confidence : Q
}.

(** An element of [review_rows]; the two scores are kept as the numbers the
    [.3f] format prints. *)
Record ReviewRow := {
  rv_id : string;
  rv_folder : string;
  rv_title : string;
  rv_date : string;
  rv_reason : string;
  rv_post_score : option Q;
  rv_img_score : option Q;
  rv_post_title_suggested : option string;
  rv_post_url_suggested : option string
}.

(** The state of the merge loop. *)
Record Run := {
  merged : list MergedRecord;
  review_rows : list ReviewRow;
  matched : nat;
  unmatched : nat
}.

(** truthiness of an optional string, an optional integer, an integer. *)
Definition truthy_opt (o : option string) : bool :=
  match o with Some s => truthy s | None => false end.

Definition truthy_Z (z : Z) : bool := negb (z =? 0).

Definition truthy_optZ (o : option Z) : bool :=
  match o with Some z => truthy_Z z | None => false end.

Definition eqb_opt (a b : option string) : bool :=
  match a, b with
  | Some x, Some y => String.eqb x y
  | None, None => true
  | _, _ => false
  end.

Definition eqb_optZ (a b : option Z) : bool :=
  match a, b with
  | Some x, Some y => x =? y
  | None, None => true
  | _, _ => false
  end.

(** ** Override table *)

Definition key_eqb (a b : string * string) : bool :=
  String.eqb (fst a) (fst b) && String.eqb (snd a) (snd b).

(** [overrides[key] = ov] *)
Fixpoint overrides_set (d : list ((string * string) * Override))
  (key : string * string) (ov : Override) : list ((string * string) * Override) :=
  match d with
  | [] => [(key, ov)]
  | (k, v) :: r =>
      if key_eqb k key then (k, ov) :: r else (k, v) :: overrides_set r key ov
  end.

(** [overrides.get(key)] *)
Fixpoint overrides_get (d : list ((string * string) * Override))
  (key : string * string) : option Override :=
  match d with
  | [] => None
  | (k, v) :: r => if key_eqb k key then Some v else overrides_get r key
  end.

Definition load_overrides (rows : list OverrideRow)
  : list ((string * string) * Override) :=
  fold_left
    (fun d row =>
       overrides_set d (normalize (o_folder row), normalize (o_title row))
         {| ov_post_url := normalize (o_post_url row);
            ov_image_pos := o_image_pos row |})
    rows [].

Definition item_key (item : LocalRecord) : string * string :=
  (normalize (l_folder item), normalize (l_title item)).

(** ** Image ordering inside a post *)

(** the sort key [(x["pos"] if x["pos"] else 999999, x["url"])]. *)
Definition sort_key (x : Image) : Z * string :=
  (if truthy_Z (im_pos x) then im_pos x else 999999, im_url x).

(** [a <= b] on such keys: tuples compare lexicographically, strings by
    code point. *)
Definition key_leb (a b : Z * string) : bool :=
  (fst a <? fst b) || ((fst a =? fst b) && String.leb (snd a) (snd b)).

(** [list.sort(key=...)] is stable; the result of a stable sort is unique,
    here computed by insertion: an element goes before the first element
    whose key is not smaller than its own. *)
Fixpoint insert_image (x : Image) (l : list Image) : list Image :=
  match l with
  | [] => [x]
  | y :: r =>
      if key_leb (sort_key x) (sort_key y) then x :: y :: r
      else y :: insert_image x r
  end.

Definition sort_images (l : list Image) : list Image :=
  fold_right insert_image [] l.

(** ** Sample data

    Concrete inputs on which the engine is run below. *)
Module Scenario.

(** The index entry and the post of the specification's first scenario. *)
Definition ghats_item : LocalRecord :=
  {| l_id := "ghats-03"; l_folder := "1911 Benaras Ghats";
     l_title := "Benaras Ghats"; l_orig_filename := "ghats03.jpg";
     l_file := "1911 Benaras Ghats/ghats03.jpg";
     l_tags := ["Benaras"; "1910s"]; l_date := "1911-03-01"; l_year := "1911" |}.

Definition ghats_url : string :=
  "https://www.oldindianphotos.in/1911/03/varanasi-ghats-1911.html".

Definition ghats_row (pos : Z) (image_url : string) : RemoteImageRecord :=
  {| r_post_url := ghats_url; r_post_title := "Varanasi Ghats 1911";
     r_post_date := "March 1911"; r_labels := ["1910s"; "Varanasi"];
     r_source := "British Library"; r_description := "Ghats on the Ganges";
     r_image_url := image_url; r_alt := ""; r_caption := "";
     r_position_in_post := pos |}.

(** Two images of the post and one row that fails the host filter. *)
Definition ghats_meta : list RemoteImageRecord :=
  [ghats_row 7 "https://1.bp.blogspot.com/x/s0/b.jpg";
   ghats_row 3 "https://1.bp.blogspot.com/x/s1600/ghats03.jpg";
   ghats_row 0 "http://tracker.example/pixel"].

(** The candidate post that the aggregator makes of these rows. *)
Definition ghats_post : CandidatePost :=
  {| post_url := ghats_url; post_title := "Varanasi Ghats 1911";
     post_slug := "varanasi ghats 1911"; post_date := "March 1911";
     post_y := Some "1911"; post_m := Some "03"; post_decade := Some "1910s";
     labels := ["1910s"; "varanasi"]; source := "British Library";
     description := "Ghats on the Ganges";
     images :=
       [{| im_url := "https://1.bp.blogspot.com/x/s1600/ghats03.jpg";
           im_alt := ""; im_caption := ""; im_pos := 3 |};
        {| im_url := "https://1.bp.blogspot.com/x/s0/b.jpg";
           im_alt := ""; im_caption := ""; im_pos := 7 |}];
     post_part := None |}.

(** An override row that forces the post and the seventh image. *)
Definition forced_rows : list OverrideRow :=
  [{| o_folder := " 1911  Benaras Ghats"; o_title := "Benaras Ghats ";
      o_post_url := ghats_url; o_image_pos := Some 7 |}].


(** An index entry and a post that both carry "Part 0". *)
Definition part0_item : LocalRecord :=
  {| l_id := "p0"; l_folder := "Delhi Durbar Part 0"; l_title := "Durbar";
     l_orig_filename := ""; l_file := ""; l_tags := []; l_date := "";
     l_year := "" |}.

Definition part0_entry : string * PostEntry :=
  ("https://www.oldindianphotos.in/2010/01/durbar.html",
   {| pe_post_title := "Delhi Durbar - Part 0"; pe_post_date := "";
      pe_labels := []; pe_source := ""; pe_description := "";
      pe_images := [] |}).

(** Two rows whose post URLs differ only in the query string. *)
Definition plain_url : string := "https://www.oldindianphotos.in/2012/03/a.html".
Definition mobile_url : string := "https://www.oldindianphotos.in/2012/03/a.html?m=1".

Definition url_row (post : string) (pos : Z) (image_url : string) : RemoteImageRecord :=
  {| r_post_url := post; r_post_title := "A"; r_post_date := "";
     r_labels := []; r_source := ""; r_description := "";
     r_image_url := image_url; r_alt := ""; r_caption := "";
     r_position_in_post := pos |}.

Definition query_meta : list RemoteImageRecord :=
  [url_row plain_url 1 "https://1.bp.blogspot.com/a/one.jpg";
   url_row mobile_url 2 "https://1.bp.blogspot.com/a/two.jpg"].

(** One post with an image without position and one at position 1000000. *)
Definition far_meta : list RemoteImageRecord :=
  [url_row plain_url 1000000 "https://1.bp.blogspot.com/a/far.jpg";
   url_row plain_url 0 "https://1.bp.blogspot.com/a/none.jpg"].

End Scenario.

(** ** The engine, over the three library functions *)
Section Engine.

(** [SequenceMatcher(None, a, b).ratio()] *)
Variable seq_ratio : string -> string -> Q.
(** [urlparse(u)]: [(netloc, path)], or [None] where it raises. *)
Variable urlparse : string -> option (string * string).
(** [Path(p).name] *)
Variable path_name : string -> string.

Definition fuzzy (a b : string) : Q :=
  seq_ratio (lower (normalize a)) (lower (normalize b)).

Definition filename_tokens_from_path (p : string) : list string :=
  tokens (strip_ext (path_name p)).

Definition host_ok (u : string) : bool :=
  match urlparse u with
  | None => false
  | Some (h, _) => if mem h ALLOWED_HOSTS then true
                   else if img_ext_search u then true else false
  end.

(** *** Post aggregator *)

Definition empty_entry : PostEntry :=
  {| pe_post_title := ""; pe_post_date := ""; pe_labels := [];
     pe_source := ""; pe_description := ""; pe_images := [] |}.

(** the dictionary appended to [post["images"]]. *)
Definition image_of_row (row : RemoteImageRecord) : Image :=
  {| im_url := r_image_url row; im_alt := r_alt row;
     im_caption := r_caption row; im_pos := r_position_in_post row |}.

(** the body of the grouping loop for a row that passed the filter. *)
Definition absorb (row : RemoteImageRecord) (post : PostEntry) : PostEntry :=
  {| pe_post_title := if truthy (pe_post_title post) then pe_post_title post
                      else normalize (r_post_title row);
     pe_post_date := if truthy (pe_post_date post) then pe_post_date post
                     else normalize (r_post_date row);
     pe_labels := match pe_labels post with [] => r_labels row | l => l end;
     pe_source := if truthy (pe_source post) then pe_source post
                  else normalize (r_source row);
     pe_description := if truthy (pe_description post) then pe_description post
                       else normalize (r_description row);
     pe_images := pe_images post ++ [image_of_row row] |}.

(** [post = post_map[pu]] followed by the updates of [post]: a missing key
    is created with the default entry, at the end of the insertion order. *)
Fixpoint post_map_update (pm : list (string * PostEntry)) (pu : string)
  (f : PostEntry -> PostEntry) : list (string * PostEntry) :=
  match pm with
  | [] => [(pu, f empty_entry)]
  | (k, v) :: r =>
      if String.eqb k pu then (k, f v) :: r
      else (k, v) :: post_map_update r pu f
  end.

Definition group_row (pm : list (string * PostEntry)) (row : RemoteImageRecord)
  : list (string * PostEntry) :=
  let u := r_image_url row in
  if negb (truthy u) || negb (host_ok u) then pm
  else post_map_update pm (normalize (r_post_url row)) (absorb row).

Definition post_map_of (meta : list RemoteImageRecord) : list (string * PostEntry) :=
  let pm := fold_left group_row meta [] in
  map (fun kv => (fst kv,
                  {| pe_post_title := pe_post_title (snd kv);
                     pe_post_date := pe_post_date (snd kv);
                     pe_labels := pe_labels (snd kv);
                     pe_source := pe_source (snd kv);
                     pe_description := pe_description (snd kv);
                     pe_images := sort_images (pe_images (snd kv)) |})) pm.

Definition make_post (kv : string * PostEntry) : CandidatePost :=
  let pu := fst kv in
  let p := snd kv in
  let '(y, m) := extract_year_month_from_post_url pu in
  {| post_url := pu;
     post_title := pe_post_title p;
     post_slug := slugify (pe_post_title p);
     post_date := pe_post_date p;
     post_y := y;
     post_m := m;
     post_decade := if truthy_opt y then decade_tag y else None;
     labels := map apply_synonyms_tokenwise (pe_labels p);
     source := pe_source p;
     description := pe_description p;
     images := pe_images p;
     post_part := extract_part_number (pe_post_title p) |}.

Definition build_posts (meta : list RemoteImageRecord) : list CandidatePost :=
  map make_post (post_map_of meta).

(** *** Scoring *)

Definition post_score (index_row : LocalRecord) (cand : CandidatePost)
  : Q * Breakdown :=
  let idx_folder := slugify (l_folder index_row) in
  let idx_title := slugify (l_title index_row) in
  let jac := max (jaccard idx_folder (post_title cand))
                 (jaccard idx_title (post_title cand)) in
  let fuz := max (fuzzy idx_folder (post_title cand))
                 (fuzzy idx_title (post_title cand)) in
  let '(iy, im) := year_month_from_index_date (l_date index_row) in
  let dy := 0%Q in
  let dy :=
    if truthy_opt iy && truthy_opt (post_y cand) && eqb_opt iy (post_y cand)
    then
      let dy := (dy + 0.10)%Q in
      if truthy_opt im && truthy_opt (post_m cand) && eqb_opt im (post_m cand)
      then (dy + 0.05)%Q else dy
    else dy in
  let dec := if truthy_opt iy then decade_tag iy else None in
  let dboost :=
    match dec with
    | Some d =>
        if truthy d
           && (contains d (lower (join " " (labels cand)))
               || (truthy_opt (post_decade cand) && eqb_opt (post_decade cand) dec))
        then 0.06%Q else 0%Q
    | None => 0%Q
    end in
  let idx_tags := map apply_synonyms_tokenwise (l_tags index_row) in
  let lab := labels cand in
  let lob :=
    match idx_tags, lab with
    | _ :: _, _ :: _ =>
        let inter := inter_size idx_tags lab in
        match inter with
        | O => 0%Q
        | _ => min (0.10 + 0.03 * inject_Z (Z.of_nat inter))%Q 0.20%Q
        end
    | _, _ => 0%Q
    end in
  let idx_part := extract_part_number (l_folder index_row ++ " " ++ l_title index_row) in
  let pbonus :=
    if truthy_optZ idx_part && truthy_optZ (post_part cand)
       && eqb_optZ idx_part (post_part cand)
    then 0.10%Q else 0%Q in
  let score := (0.45 * jac + 0.35 * fuz + dy + dboost + lob + pbonus)%Q in
  (score, {| jac := jac; fuz := fuz; dy := dy; dboost := dboost;
             lob := lob; pbonus := pbonus |}).

(** [abs(a - b)] as a rational. *)
Definition abs_diff (a b : Z) : Q := inject_Z (Z.abs (a - b)).

(** [None] where [urlparse(image["url"])] raises. *)
Definition image_score (index_row : LocalRecord) (image : Image)
  (guessed_pos : option Z) : option Q :=
  let s := 0%Q in
  let s :=
    if truthy_Z (im_pos image) && truthy_optZ guessed_pos
       && eqb_optZ (Some (im_pos image)) guessed_pos
    then (s + 0.58)%Q
    else if truthy_Z (im_pos image) && truthy_optZ guessed_pos
    then
      let dist := abs_diff (im_pos image)
                           (match guessed_pos with Some g => g | None => 0 end) in
      (s + max 0%Q (0.46 - 0.09 * dist))%Q
    else s in
  let idx_file_tokens := filename_tokens_from_path (l_file index_row) in
  match urlparse (im_url image) with
  | None => None
  | Some (_, url_path) =>
      let img_file_tokens := filename_tokens_from_path url_path in
      let s :=
        match idx_file_tokens, img_file_tokens with
        | _ :: _, _ :: _ =>
            let inter := inter_size idx_file_tokens img_file_tokens in
            match inter with
            | O => s
            | _ => (s + min 0.36%Q (0.18 + 0.10 * inject_Z (Z.of_nat inter)))%Q
            end
        | _, _ => s
        end in
      Some (s + prefer_original (im_url image))%Q
  end.

(** *** Merge *)

(** What one iteration of the merge loop adds: the merged record, the review
    row if any, and the increments of the two counters. *)
Record Outcome := {
  out : MergedRecord;
  review : option ReviewRow;
  d_matched : nat;
  d_unmatched : nat
}.

(** [next((p for p in posts if p["post_url"] == forced_url), None)] *)
Fixpoint find_post (posts : list CandidatePost) (url : string)
  : option CandidatePost :=
  match posts with
  | [] => None
  | p :: r => if String.eqb (post_url p) url then Some p else find_post r url
  end.

(** the loop [for im in images: sc = image_score(...); if sc > best: ...];
    [None] if a call of [image_score] raises. *)
Fixpoint choose_image (item : LocalRecord) (guessed_pos : option Z)
  (ims : list Image) (best_img : option Image) (best_score : Q)
  : option (option Image * Q) :=
  match ims with
  | [] => Some (best_img, best_score)
  | im :: r =>
      match image_score item im guessed_pos with
      | None => None
      | Some sc =>
          if qlt best_score sc then choose_image item guessed_pos r (Some im) sc
          else choose_image item guessed_pos r best_img best_score
      end
  end.

(** the loop [for cand in posts: sc, dbg = post_score(...); if sc > best: ...] *)
Fixpoint choose_post (item : LocalRecord) (posts : list CandidatePost)
  (best_post : option CandidatePost) (best_p_score : Q)
  : option CandidatePost * Q :=
  match posts with
  | [] => (best_post, best_p_score)
  | cand :: r =>
      let sc := fst (post_score item cand) in
      if qlt best_p_score sc then choose_post item r (Some cand) sc
      else choose_post item r best_post best_p_score
  end.

Definition review_row (item : LocalRecord) (reason : string)
  (ps isc : option Q) (title_s url_s : option string) : ReviewRow :=
  {| rv_id := l_id item; rv_folder := l_folder item; rv_title := l_title item;
     rv_date := l_date item; rv_reason := reason;
     rv_post_score := ps; rv_img_score := isc;
     rv_post_title_suggested := title_s; rv_post_url_suggested := url_s |}.

(** [out.update({...})] with the fields of a found post. *)
Definition with_post (item : LocalRecord) (cand : CandidatePost)
  (img : option string) (conf : Q) : MergedRecord :=
  {| m_item := item; m_image_url := img;
     m_post_url := Some (post_url cand);
     m_post_title := Some (post_title cand);
     m_post_labels := Some (labels cand);
     m_post_source := Some (source cand);
     m_post_description := Some (description cand);
     match_confidence := conf |}.

Definition without_post (item : LocalRecord) (purl : option string) (conf : Q)
  : MergedRecord :=
  {| m_item := item; m_image_url := None; m_post_url := purl;
     m_post_title := None; m_post_labels := None; m_post_source := None;
     m_post_description := None; match_confidence := conf |}.

(** the branch [if key in overrides and overrides[key].get("post_url")] *)
Definition merge_override (posts : list CandidatePost) (item : LocalRecord)
  (ov : Override) : option Outcome :=
  let forced_url := ov_post_url ov in
  let forced_pos := ov_image_pos ov in
  match find_post posts forced_url with
  | None =>
      Some {| out := without_post item (Some forced_url) 0.0%Q;
              review := Some (review_row item "override_post_not_found"
                                None None None (Some forced_url));
              d_matched := 0; d_unmatched := 1 |}
  | Some cand =>
      let guessed_pos :=
        if truthy_optZ forced_pos then forced_pos
        else number_from_orig_filename (l_orig_filename item) in
      match choose_image item guessed_pos (images cand) None (-1.0)%Q with
      | None => None
      | Some (Some best_img, _) =>
          Some {| out := with_post item cand (Some (im_url best_img)) 1.0%Q;
                  review := None;
                  d_matched := 1; d_unmatched := 0 |}
      | Some (None, _) =>
          Some {| out := with_post item cand None 0.8%Q;
                  review := Some (review_row item "override_post_found_but_no_image"
                                    None None None (Some (post_url cand)));
                  d_matched := 0; d_unmatched := 0 |}
      end
  end.

(** the branch [if not best_post or best_p_score < args.post_threshold] *)
Definition reject_post (item : LocalRecord) (best_post : option CandidatePost)
  (best_p_score : Q) : Outcome :=
  {| out := without_post item None (round best_p_score 4);
     review := Some (review_row item "post_low_confidence"
                       (Some (round best_p_score 3)) None
                       (Some (match best_post with
                              | Some p => post_title p | None => "" end))
                       (Some (match best_post with
                              | Some p => post_url p | None => "" end)));
     d_matched := 0; d_unmatched := 1 |}.

(** the branch [if not best_img or best_i_score < args.img_threshold] *)
Definition reject_image (item : LocalRecord) (best_post : CandidatePost)
  (best_p_score best_i_score : Q) : Outcome :=
  {| out := with_post item best_post None (round best_p_score 4);
     review := Some (review_row item "image_low_confidence"
                       (Some (round best_p_score 3))
                       (Some (round best_i_score 3))
                       (Some (post_title best_post)) (Some (post_url best_post)));
     d_matched := 0; d_unmatched := 1 |}.

(** the final block ([# success]) *)
Definition accept (item : LocalRecord) (best_post : CandidatePost)
  (best_img : Image) (best_p_score best_i_score : Q) : Outcome :=
  {| out := with_post item best_post (Some (im_url best_img))
              (round (min 1.0%Q (best_p_score * 0.65 + best_i_score * 0.35)%Q) 4);
     review := None;
     d_matched := 1; d_unmatched := 0 |}.

(** choosing the image within an accepted post. *)
Definition merge_images (img_threshold : Q) (item : LocalRecord)
  (best_post : CandidatePost) (best_p_score : Q) : option Outcome :=
  let guessed_pos := number_from_orig_filename (l_orig_filename item) in
  match choose_image item guessed_pos (images best_post) None (-1.0)%Q with
  | None => None
  | Some (None, best_i_score) =>
      Some (reject_image item best_post best_p_score best_i_score)
  | Some (Some best_img, best_i_score) =>
      if qlt best_i_score img_threshold
      then Some (reject_image item best_post best_p_score best_i_score)
      else Some (accept item best_post best_img best_p_score best_i_score)
  end.

(** the normal flow: score all posts and pick the best, gate on the post
    threshold, then choose the image. *)
Definition merge_scored (post_threshold img_threshold : Q)
  (posts : list CandidatePost) (item : LocalRecord) : option Outcome :=
  let '(best_post, best_p_score) := choose_post item posts None (-1.0)%Q in
  match best_post with
  | None => Some (reject_post item best_post best_p_score)
  | Some bp =>
      if qlt best_p_score post_threshold
      then Some (reject_post item best_post best_p_score)
      else merge_images img_threshold item bp best_p_score
  end.

(** the body of [for item in index]. *)
Definition merge_item (post_threshold img_threshold : Q)
  (posts : list CandidatePost) (overrides : list ((string * string) * Override))
  (item : LocalRecord) : option Outcome :=
  match overrides_get overrides (item_key item) with
  | Some ov =>
      if truthy (ov_post_url ov) then merge_override posts item ov
      else merge_scored post_threshold img_threshold posts item
  | None => merge_scored post_threshold img_threshold posts item
  end.

Definition initial_run : Run :=
  {| merged := []; review_rows := []; matched := 0; unmatched := 0 |}.

Definition record_outcome (st : Run) (o : Outcome) : Run :=
  {| merged := merged st ++ [out o];
     review_rows := review_rows st ++ match review o with
                                      | Some r => [r] | None => [] end;
     matched := matched st + d_matched o;
     unmatched := unmatched st + d_unmatched o |}.

(** the merge loop from a given state; [None] if an iteration raises. *)
Fixpoint merge_from (post_threshold img_threshold : Q)
  (posts : list CandidatePost) (overrides : list ((string * string) * Override))
  (index : list LocalRecord) (st : Run) : option Run :=
  match index with
  | [] => Some st
  | item :: rest =>
      match merge_item post_threshold img_threshold posts overrides item with
      | None => None
      | Some o =>
          merge_from post_threshold img_threshold posts overrides rest
                     (record_outcome st o)
      end
  end.

(** The whole script: aggregate [meta], load the overrides, merge [index]. *)
Definition merge (post_threshold img_threshold : Q)
  (meta : list RemoteImageRecord) (override_rows : list OverrideRow)
  (index : list LocalRecord) : option Run :=
  merge_from post_threshold img_threshold (build_posts meta)
             (load_overrides override_rows) index initial_run.

(** The outcome class of one record: the reason of its review row, or
    ["matched"] when it has none. *)
Definition outcome_class (o : Outcome) : string :=
  match review o with
  | Some r => rv_reason r
  | None => "matched"
  end.

(** *** The post score as the specification words it

    The formula of the specification, term by term, with the mathematical
    [Qmax] and [Qmin] and with "non-null and equal" read on optional values;
    [part_bonus] is the reading of the part-number condition. *)

Definition both_equal (a b : option string) : bool :=
  match a, b with
  | Some x, Some y => String.eqb x y
  | _, _ => false
  end.

Definition date_boost_formula (item : LocalRecord) (cand : CandidatePost) : Q :=
  let '(iy, im) := year_month_from_index_date (l_date item) in
  if both_equal iy (post_y cand)
  then (0.10 + (if both_equal im (post_m cand) then 0.05 else 0))%Q
  else 0%Q.

Definition decade_boost_formula (item : LocalRecord) (cand : CandidatePost) : Q :=
  match decade_tag (fst (year_month_from_index_date (l_date item))) with
  | Some d =>
      if contains d (lower (join " " (labels cand)))
         || both_equal (post_decade cand) (Some d)
      then 0.06%Q else 0%Q
  | None => 0%Q
  end.

Definition label_boost_formula (item : LocalRecord) (cand : CandidatePost) : Q :=
  let n := inter_size (map apply_synonyms_tokenwise (l_tags item)) (labels cand) in
  match n with
  | O => 0%Q
  | _ => Qmin (0.10 + 0.03 * inject_Z (Z.of_nat n)) 0.20
  end.

(** "both part numbers are non-null and equal" *)
Definition part_bonus_non_null (a b : option Z) : Q :=
  match a, b with
  | Some x, Some y => if x =? y then 0.10%Q else 0%Q
  | _, _ => 0%Q
  end.

(** "both part numbers are non-null, not zero, and equal" *)
Definition part_bonus_non_zero (a b : option Z) : Q :=
  match a, b with
  | Some x, Some y => if (x =? y) && negb (x =? 0) then 0.10%Q else 0%Q
  | _, _ => 0%Q
  end.

Definition post_score_formula (part_bonus : option Z -> option Z -> Q)
  (item : LocalRecord) (cand : CandidatePost) : Q :=
  (0.45 * Qmax (jaccard (slugify (l_folder item)) (post_title cand))
               (jaccard (slugify (l_title item)) (post_title cand))
   + 0.35 * Qmax (fuzzy (slugify (l_folder item)) (post_title cand))
                 (fuzzy (slugify (l_title item)) (post_title cand))
   + date_boost_formula item cand
   + decade_boost_formula item cand
   + label_boost_formula item cand
   + part_bonus (extract_part_number (l_folder item ++ " " ++ l_title item))
                (post_part cand))%Q.

(** *** The grouping key as the specification words it *)

(** Modelled from the spec: the normalisation of a post URL that the
    specification of the aggregator describes ("scheme+host+path only,
    query/fragment stripped"), which the merge script does not contain: the
    URL up to its first [?] or [#]. *)
Fixpoint strip_query_fragment (u : string) : string :=
  match u with
  | EmptyString => EmptyString
  | String c r =>
      if is_char "?" c || is_char "#" c then EmptyString
      else String c (strip_query_fragment r)
  end.

(** The order of the images of a post, in plain terms: by position, a zero
    position counting as 999999, then by URL. *)
Definition effective_pos (x : Image) : Z :=
  if im_pos x =? 0 then 999999 else im_pos x.

Definition image_le (a b : Image) : Prop :=
  effective_pos a < effective_pos b
  \/ (effective_pos a = effective_pos b /\ String.leb (im_url a) (im_url b) = true).

(** *** Invariants used below *)

(** An entry of [post_map] that the grouping loop has touched: it has an
    image, and every image of it passed [host_ok]. *)
Definition entry_ok (e : PostEntry) : Prop :=
  pe_images e <> [] /\ Forall (fun im => host_ok (im_url im) = true) (pe_images e).

(** What the merge loop relies on: every candidate post has an image, and
    every image of it passed [host_ok]. *)
Definition post_ok (p : CandidatePost) : Prop :=
  images p <> [] /\ Forall (fun im => host_ok (im_url im) = true) (images p).


(** the key [k] is in the map and its entry holds the image [im]. *)
Definition holds (pm : list (string * PostEntry)) (k : string) (im : Image) : Prop :=
  exists e, In (k, e) pm /\ In im (pe_images e).

(** A token of the folded text: non-empty, of the class [a-z0-9]. *)
Definition token (t : string) : Prop :=
  truthy t = true /\ sforall is_az09 t = true.

(** *** Readings used to state facts about the tables *)

(** the key and the value that [load_overrides] makes of a row. *)
Definition row_key (row : OverrideRow) : string * string :=
  (normalize (o_folder row), normalize (o_title row)).

Definition override_of_row (row : OverrideRow) : Override :=
  {| ov_post_url := normalize (o_post_url row); ov_image_pos := o_image_pos row |}.

(** a record passes the filter of the grouping loop. *)
Definition survives (row : RemoteImageRecord) : bool :=
  truthy (r_image_url row) && host_ok (r_image_url row).

(** the surviving records of the post URL [k], in input order. *)
Definition group_of (meta : list RemoteImageRecord) (k : string)
  : list RemoteImageRecord :=
  filter (fun row => survives row && String.eqb (normalize (r_post_url row)) k) meta.

(** the elements of a list in the order of their first occurrence. *)
Fixpoint first_occurrences (l : list string) : list string :=
  match l with
  | [] => []
  | x :: r => x :: filter (fun y => negb (String.eqb y x)) (first_occurrences r)
  end.

(** the first non-empty string of a list, or the empty string. *)
Definition first_truthy (l : list string) : string :=
  match filter truthy l with
  | x :: _ => x
  | [] => EmptyString
  end.

(** the first non-empty list of a list of lists, or the empty list. *)
Definition first_nonempty (l : list (list string)) : list string :=
  match filter (fun x => match x with [] => false | _ => true end) l with
  | x :: _ => x
  | [] => []
  end.

(** [post_map.get(k)] *)
Fixpoint post_map_get (pm : list (string * PostEntry)) (k : string)
  : option PostEntry :=
  match pm with
  | [] => None
  | (k', v) :: r => if String.eqb k' k then Some v else post_map_get r k
  end.

Definition entry_of (pm : list (string * PostEntry)) (k : string) : PostEntry :=
  match post_map_get pm k with Some e => e | None => empty_entry end.



(** A word: a non-empty string without whitespace. *)
Definition word (t : string) : Prop :=
  truthy t = true /\ sforall (fun c => negb (is_space c)) t = true.

(** The fixed points of [slugify]: tokens, none of them a synonym key,
    joined by single blanks. *)
Definition folded (y : string) : Prop :=
  exists ts, Forall (fun t => token t /\ dict_get SYNONYMS t = None) ts
             /\ y = join " " ts.

(** the image has the sort key [k]. *)
Definition has_key (k : Z * string) (x : Image) : bool :=
  (fst (sort_key x) =? fst k) && String.eqb (snd (sort_key x)) (snd k).

(** [only_ascii] of the source: [re.sub(r"[^\x20-\x7E]+", " ", s or "")]. *)
Definition printable (c : ascii) : bool := between 32 126 c.

Definition only_ascii (s : string) : string :=
  sub_runs (fun c => negb (printable c)) false s.


(** the text has no dot. *)
Definition no_dot (s : string) : bool :=
  sforall (fun c => negb (Ascii.eqb c ".")) s.

(** ** Facts about the numeric helpers *)

Lemma qlt_true (a b : Q) : qlt a b = true <-> (a < b)%Q.
Proof.
  unfold qlt. rewrite negb_true_iff. split; intro H.
  - apply Qnot_le_lt. intro Hle. apply Qle_bool_iff in Hle. congruence.
  - destruct (Qle_bool b a) eqn:E; [|reflexivity].
    apply Qle_bool_iff in E. exfalso. apply (Qlt_not_le _ _ H E).
Qed.

Lemma qlt_false (a b : Q) : qlt a b = false <-> (b <= a)%Q.
Proof.
  unfold qlt. rewrite negb_false_iff. apply Qle_bool_iff.
Qed.

Lemma max_is_Qmax (a b : Q) : (max a b == Qmax a b)%Q.
Proof.
  unfold max. destruct (qlt a b) eqn:E.
  - apply qlt_true in E. symmetry. apply Q.max_r. apply Qlt_le_weak, E.
  - apply qlt_false in E. symmetry. apply Q.max_l, E.
Qed.

Lemma min_is_Qmin (a b : Q) : (min a b == Qmin a b)%Q.
Proof.
  unfold min. destruct (qlt b a) eqn:E.
  - apply qlt_true in E. symmetry. apply Q.min_r. apply Qlt_le_weak, E.
  - apply qlt_false in E. symmetry. apply Q.min_l, E.
Qed.

Lemma max_nonneg (a b : Q) : (0 <= a)%Q -> (0 <= max a b)%Q.
Proof.
  intro H. rewrite max_is_Qmax. apply Q.max_le_iff. now left.
Qed.

Lemma min_nonneg (a b : Q) : (0 <= a)%Q -> (0 <= b)%Q -> (0 <= min a b)%Q.
Proof.
  intros Ha Hb. unfold min. now destruct (qlt b a).
Qed.

Lemma min_le_l (a b : Q) : (min a b <= a)%Q.
Proof.
  rewrite min_is_Qmin. apply Q.le_min_l.
Qed.

Lemma inject_nat_nonneg (n : nat) : (0 <= inject_Z (Z.of_nat n))%Q.
Proof.
  change 0%Q with (inject_Z 0). rewrite <- Zle_Qle. lia.
Qed.





Lemma prefer_original_nonneg (u : string) : (0 <= prefer_original u)%Q.
Proof.
  unfold prefer_original.
  destruct (contains "/s0/" u), (contains "imgmax=0" u); lra.
Qed.

(** ** Facts about the scores *)


Lemma image_score_nonneg (item : LocalRecord) (im : Image) (g : option Z) (q : Q) :
  image_score item im g = Some q -> (0 <= q)%Q.
Proof.
  unfold image_score.
  destruct (urlparse (im_url im)) as [[h p]|]; [|discriminate].
  intro H. injection H as <-.
  pose proof (prefer_original_nonneg (im_url im)) as Hp.
  cbv zeta.
  match goal with
  | |- context [ (if ?c then (0 + 0.58)%Q else ?e) ] =>
      set (pos_part := if c then (0 + 0.58)%Q else e)
  end.
  assert (Hpos : (0 <= pos_part)%Q).
  { unfold pos_part.
    match goal with |- context [ if ?c then _ else _ ] => destruct c end; [lra|].
    match goal with |- context [ if ?c then _ else _ ] => destruct c end; [|lra].
    match goal with
    | |- context [ max 0 ?x ] => pose proof (max_nonneg 0 x (Qle_refl 0))
    end.
    lra. }
  clearbody pos_part.
  destruct (filename_tokens_from_path (l_file item)) as [|t ts]; [lra|].
  destruct (filename_tokens_from_path p) as [|t' ts']; [lra|].
  destruct (inter_size (t :: ts) (t' :: ts')) as [|n]; [lra|].
  assert (Hm : (0 <= min 0.36 (0.18 + 0.10 * inject_Z (Z.of_nat (S n))))%Q).
  { apply min_nonneg; [lra|].
    pose proof (inject_nat_nonneg (S n)). lra. }
  lra.
Qed.


Lemma jaccard_nonneg (a b : string) : (0 <= jaccard a b)%Q.
Proof.
  unfold jaccard.
  destruct (tokens a) as [|x xs]; [lra|].
  destruct (tokens b) as [|y ys]; [lra|].
  set (n := inter_size _ _). set (m := union_size _ _).
  unfold Qdiv. apply Qmult_le_0_compat; [apply inject_nat_nonneg|].
  apply Qinv_le_0_compat, inject_nat_nonneg.
Qed.

Section NonNegativeRatio.

Hypothesis seq_ratio_nonneg : forall a b, (0 <= seq_ratio a b)%Q.



End NonNegativeRatio.

(** ** Facts about image selection *)


(** ** Facts about the aggregator *)

Lemma absorb_ok (row : RemoteImageRecord) (e : PostEntry) :
  host_ok (r_image_url row) = true ->
  Forall (fun im => host_ok (im_url im) = true) (pe_images e) ->
  entry_ok (absorb row e).
Proof.
  intros Hh He. unfold entry_ok, absorb. cbn [pe_images]. split.
  - destruct (pe_images e); discriminate.
  - apply Forall_app. split; [exact He|]. constructor; [exact Hh | constructor].
Qed.

Lemma post_map_update_ok (row : RemoteImageRecord) (pu : string)
  (pm : list (string * PostEntry)) :
  host_ok (r_image_url row) = true ->
  Forall (fun kv => entry_ok (snd kv)) pm ->
  Forall (fun kv => entry_ok (snd kv)) (post_map_update pm pu (absorb row)).
Proof.
  intros Hh. induction 1 as [|[k v] r Hkv Hr IH]; cbn [post_map_update].
  - constructor; [|constructor]. apply absorb_ok; [exact Hh | constructor].
  - destruct (String.eqb k pu).
    + constructor; [|exact Hr]. apply absorb_ok; [exact Hh | apply Hkv].
    + constructor; assumption.
Qed.

Lemma group_row_ok (row : RemoteImageRecord) (pm : list (string * PostEntry)) :
  Forall (fun kv => entry_ok (snd kv)) pm ->
  Forall (fun kv => entry_ok (snd kv)) (group_row pm row).
Proof.
  intro H. unfold group_row.
  destruct (truthy (r_image_url row)); cbn [negb orb]; [|exact H].
  destruct (host_ok (r_image_url row)) eqn:E; cbn [negb]; [|exact H].
  now apply post_map_update_ok.
Qed.

Lemma fold_group_ok (meta : list RemoteImageRecord) :
  forall pm, Forall (fun kv => entry_ok (snd kv)) pm ->
             Forall (fun kv => entry_ok (snd kv)) (fold_left group_row meta pm).
Proof.
  induction meta as [|row r IH]; intros pm H; cbn [fold_left].
  - exact H.
  - apply IH, group_row_ok, H.
Qed.

Lemma insert_image_In (x y : Image) (l : list Image) :
  In y (insert_image x l) <-> y = x \/ In y l.
Proof.
  induction l as [|z r IH]; cbn [insert_image].
  - cbn. intuition.
  - destruct (key_leb (sort_key x) (sort_key z)); cbn [In].
    + intuition.
    + rewrite IH. intuition.
Qed.

Lemma sort_images_In (y : Image) (l : list Image) :
  In y (sort_images l) <-> In y l.
Proof.
  induction l as [|x r IH]; cbn [sort_images fold_right In].
  - tauto.
  - fold (sort_images r). rewrite insert_image_In, IH. intuition.
Qed.

Lemma sort_images_nonempty (l : list Image) : l <> [] -> sort_images l <> [].
Proof.
  destruct l as [|x r]; [congruence|]. intros _ E.
  assert (H : In x (sort_images (x :: r))) by (apply sort_images_In; now left).
  rewrite E in H. exact H.
Qed.

Lemma images_make_post (kv : string * PostEntry) :
  images (make_post kv) = pe_images (snd kv).
Proof.
  unfold make_post. destruct (extract_year_month_from_post_url (fst kv)). reflexivity.
Qed.

Lemma post_url_make_post (kv : string * PostEntry) :
  post_url (make_post kv) = fst kv.
Proof.
  unfold make_post. destruct (extract_year_month_from_post_url (fst kv)). reflexivity.
Qed.

Lemma build_posts_ok (meta : list RemoteImageRecord) :
  Forall post_ok (build_posts meta).
Proof.
  unfold build_posts, post_map_of.
  pose proof (fold_group_ok meta [] (Forall_nil _)) as H.
  rewrite Forall_forall in H |- *.
  intros p Hp. apply in_map_iff in Hp. destruct Hp as (kv & <- & Hkv).
  apply in_map_iff in Hkv. destruct Hkv as (kv0 & <- & Hkv0).
  destruct (H kv0 Hkv0) as [Hne Hall].
  unfold post_ok. rewrite images_make_post. cbn [snd pe_images]. split.
  - now apply sort_images_nonempty.
  - rewrite Forall_forall in Hall |- *. intros im Him.
    apply Hall. now apply sort_images_In.
Qed.

Lemma find_post_In (posts : list CandidatePost) (url : string) (p : CandidatePost) :
  find_post posts url = Some p -> In p posts /\ post_url p = url.
Proof.
  induction posts as [|c r IH]; cbn [find_post]; [discriminate|].
  destruct (String.eqb (post_url c) url) eqn:E.
  - intro H. injection H as <-. split; [now left | now apply String.eqb_eq].
  - intro H. destruct (IH H). split; [now right | assumption].
Qed.

(** ** Facts about the merge loop *)

Lemma choose_post_In (item : LocalRecord) (posts : list CandidatePost) :
  forall best bs p s,
    choose_post item posts best bs = (Some p, s) -> best = Some p \/ In p posts.
Proof.
  induction posts as [|c r IH]; intros best bs p s; cbn [choose_post].
  - intro H. injection H as -> _. now left.
  - destruct (qlt bs (fst (post_score item c))); intro H; apply IH in H.
    + destruct H as [H | H]; [injection H as ->; right; now left | right; now right].
    + destruct H as [H | H]; [now left | right; now right].
Qed.







(** ** Coverage, counters and the override outcome *)





(** ** The post threshold *)


(** ** Confidence *)



(** ** The post score against its formula *)

Lemma match_classes_length (p : list (ascii -> bool)) :
  forall s r, match_classes p s = Some r ->
              (List.length p <= String.length s)%nat.
Proof.
  induction p as [|q p IH]; intros s r; cbn [match_classes List.length].
  - lia.
  - destruct s as [|c s']; [discriminate|]. cbn [String.length].
    destruct (q c); [|discriminate].
    intro H. apply IH in H. lia.
Qed.

Lemma take_truthy (n : nat) (s : string) :
  (0 < n)%nat -> (0 < String.length s)%nat -> truthy (take n s) = true.
Proof.
  destruct n; [lia|]. destruct s; cbn; [lia | reflexivity].
Qed.

Lemma drop_length (n : nat) :
  forall s, String.length (drop n s) = (String.length s - n)%nat.
Proof.
  induction n as [|n IH]; intro s; cbn [drop].
  - lia.
  - destruct s as [|c r]; cbn [String.length]; [reflexivity | apply IH].
Qed.

(** The year and month read from an index date are both present and
    non-empty, or both absent. *)
Lemma year_month_cases (d : string) :
  year_month_from_index_date d = (None, None)
  \/ exists y m, year_month_from_index_date d = (Some y, Some m)
                 /\ truthy y = true /\ truthy m = true.
Proof.
  unfold year_month_from_index_date.
  destruct (negb (truthy d)); [now left|].
  destruct (match_classes DATE_CLASSES d) as [r|] eqn:E; [|now left].
  right. apply match_classes_length in E. cbn [DATE_CLASSES List.length] in E.
  eexists _, _. split; [reflexivity|]. split.
  - apply take_truthy; lia.
  - apply take_truthy; [lia|]. rewrite drop_length. lia.
Qed.

Lemma decade_tag_truthy (y : option string) (d : string) :
  decade_tag y = Some d -> truthy d = true /\ truthy_opt y = true.
Proof.
  unfold decade_tag. destruct y as [y|]; [|discriminate].
  destruct (truthy y) eqn:Ty; cbn [negb]; [|discriminate].
  destruct (match_classes _ y) as [r|] eqn:E; [|discriminate].
  destruct (at_end r); [|discriminate].
  intro H. injection H as <-. split; [|exact Ty].
  apply match_classes_length in E. cbn [List.length] in E.
  destruct y as [|c1 [|c2 [|c3 y']]]; cbn in E; try lia. reflexivity.
Qed.

Lemma inter_size_nil_r (a : list string) : inter_size a [] = 0%nat.
Proof.
  unfold inter_size. induction (dedup a) as [|x r IH]; [reflexivity | exact IH].
Qed.

Lemma both_equal_truthy (a b : option string) :
  truthy_opt a = true ->
  truthy_opt a && truthy_opt b && eqb_opt a b = both_equal a b.
Proof.
  destruct a as [x|], b as [y|]; cbn; try reflexivity; try discriminate.
  - intro Hx. rewrite Hx. cbn. destruct (String.eqb x y) eqn:E.
    + apply String.eqb_eq in E. subst y. now rewrite Hx.
    + now rewrite andb_false_r.
  - intro Hx. now rewrite Hx.
Qed.

Lemma date_boost_agrees (item : LocalRecord) (cand : CandidatePost) :
  (dy (snd (post_score item cand)) == date_boost_formula item cand)%Q.
Proof.
  unfold post_score, date_boost_formula.
  destruct (year_month_cases (l_date item)) as [E | (y & m & E & Hy & Hm)];
    rewrite E; cbv zeta; cbn [snd dy].
  - reflexivity.
  - rewrite (both_equal_truthy (Some y) (post_y cand) Hy).
    rewrite (both_equal_truthy (Some m) (post_m cand) Hm).
    destruct (both_equal (Some y) (post_y cand)); [|reflexivity].
    destruct (both_equal (Some m) (post_m cand)); lra.
Qed.

Lemma decade_boost_agrees (item : LocalRecord) (cand : CandidatePost) :
  dboost (snd (post_score item cand)) = decade_boost_formula item cand.
Proof.
  unfold post_score, decade_boost_formula.
  destruct (year_month_from_index_date (l_date item)) as [iy im].
  cbv zeta. cbn [snd dboost fst].
  destruct (decade_tag iy) as [d|] eqn:E.
  - destruct (decade_tag_truthy _ _ E) as [Hd Hy]. rewrite Hy.
    cbv iota beta. rewrite Hd. cbn [andb].
    replace (truthy_opt (post_decade cand) && eqb_opt (post_decade cand) (Some d))
      with (both_equal (post_decade cand) (Some d)); [reflexivity|].
    destruct (post_decade cand) as [x|]; cbn; [|reflexivity].
    destruct (String.eqb x d) eqn:Ex; [|now rewrite andb_false_r].
    apply String.eqb_eq in Ex. subst x. now rewrite Hd.
  - destruct (truthy_opt iy); reflexivity.
Qed.

Lemma label_boost_agrees (item : LocalRecord) (cand : CandidatePost) :
  (lob (snd (post_score item cand)) == label_boost_formula item cand)%Q.
Proof.
  unfold post_score, label_boost_formula.
  destruct (year_month_from_index_date (l_date item)) as [iy im].
  cbv zeta. cbn [snd lob].
  destruct (map apply_synonyms_tokenwise (l_tags item)) as [|t ts]; [reflexivity|].
  destruct (labels cand) as [|l ls].
  - now rewrite inter_size_nil_r.
  - destruct (inter_size (t :: ts) (l :: ls)); [reflexivity | apply min_is_Qmin].
Qed.

Lemma part_bonus_agrees (item : LocalRecord) (cand : CandidatePost) :
  pbonus (snd (post_score item cand))
  = part_bonus_non_zero (extract_part_number (l_folder item ++ " " ++ l_title item))
                        (post_part cand).
Proof.
  unfold post_score, part_bonus_non_zero.
  destruct (year_month_from_index_date (l_date item)) as [iy im].
  cbv zeta. cbn [snd pbonus].
  destruct (extract_part_number _) as [x|], (post_part cand) as [y|];
    cbn; try reflexivity.
  - unfold truthy_Z. destruct (x =? y) eqn:E.
    + apply Z.eqb_eq in E. subst y. now destruct (x =? 0).
    + now rewrite andb_false_r.
  - now rewrite andb_false_r.
Qed.

Lemma post_score_sum (item : LocalRecord) (cand : CandidatePost) :
  fst (post_score item cand)
  = (0.45 * jac (snd (post_score item cand))
     + 0.35 * fuz (snd (post_score item cand))
     + dy (snd (post_score item cand))
     + dboost (snd (post_score item cand))
     + lob (snd (post_score item cand))
     + pbonus (snd (post_score item cand)))%Q
  /\ jac (snd (post_score item cand))
     = max (jaccard (slugify (l_folder item)) (post_title cand))
           (jaccard (slugify (l_title item)) (post_title cand))
  /\ fuz (snd (post_score item cand))
     = max (fuzzy (slugify (l_folder item)) (post_title cand))
           (fuzzy (slugify (l_title item)) (post_title cand)).
Proof.
  unfold post_score.
  destruct (year_month_from_index_date (l_date item)) as [iy im].
  cbv zeta. cbn [fst snd jac fuz dy dboost lob pbonus]. repeat split.
Qed.

(** C5, as the code has it.  The score [post_score] returns is the sum of
    0.45 times the larger Jaccard similarity, 0.35 times the larger fuzzy
    ratio, the date boost, the decade boost, the label-overlap boost and the
    part bonus of the specification's formula, where the part bonus is added
    when both part numbers are present, equal and not zero. *)
Theorem post_score_is_formula (item : LocalRecord) (cand : CandidatePost) :
  (fst (post_score item cand)
   == post_score_formula part_bonus_non_zero item cand)%Q.
Proof.
  destruct (post_score_sum item cand) as (Hsum & Hjac & Hfuz).
  rewrite Hsum, Hjac, Hfuz. unfold post_score_formula.
  rewrite date_boost_agrees, decade_boost_agrees, label_boost_agrees,
          part_bonus_agrees.
  rewrite !max_is_Qmax. reflexivity.
Qed.

(** ** The order of the images of a post *)

Lemma ascii_compare_lt_trans (a b c : ascii) :
  Ascii.compare a b = Lt -> Ascii.compare b c = Lt -> Ascii.compare a c = Lt.
Proof.
  unfold Ascii.compare. rewrite !N.compare_lt_iff. apply N.lt_trans.
Qed.

Lemma string_compare_lt_trans :
  forall a b c : string,
    String.compare a b = Lt -> String.compare b c = Lt -> String.compare a c = Lt.
Proof.
  induction a as [|x a IH]; intros [|y b] [|z c]; cbn [String.compare];
    try congruence.
  destruct (Ascii.compare x y) eqn:Exy; try discriminate;
    destruct (Ascii.compare y z) eqn:Eyz; try discriminate; intros H1 H2.
  - apply Ascii.compare_eq_iff in Exy, Eyz. subst y z.
    assert (E : Ascii.compare x x = Eq).
    { unfold Ascii.compare. apply N.compare_refl. }
    rewrite E. eapply IH; eassumption.
  - apply Ascii.compare_eq_iff in Exy. subst y. now rewrite Eyz.
  - apply Ascii.compare_eq_iff in Eyz. subst z. now rewrite Exy.
  - now rewrite (ascii_compare_lt_trans _ _ _ Exy Eyz).
Qed.

Lemma string_compare_refl (a : string) : String.compare a a = Eq.
Proof.
  induction a as [|x a IH]; cbn [String.compare]; [reflexivity|].
  assert (E : Ascii.compare x x = Eq) by (unfold Ascii.compare; apply N.compare_refl).
  now rewrite E.
Qed.

Lemma string_leb_trans (a b c : string) :
  String.leb a b = true -> String.leb b c = true -> String.leb a c = true.
Proof.
  unfold String.leb.
  destruct (String.compare a b) eqn:Eab; try discriminate;
    destruct (String.compare b c) eqn:Ebc; try discriminate; intros _ _.
  - apply String.compare_eq_iff in Eab. apply String.compare_eq_iff in Ebc.
    rewrite Eab, Ebc. now rewrite string_compare_refl.
  - apply String.compare_eq_iff in Eab. rewrite Eab. now rewrite Ebc.
  - apply String.compare_eq_iff in Ebc. rewrite <- Ebc. now rewrite Eab.
  - now rewrite (string_compare_lt_trans _ _ _ Eab Ebc).
Qed.

Lemma key_leb_image_le (a b : Image) :
  key_leb (sort_key a) (sort_key b) = true <-> image_le a b.
Proof.
  unfold key_leb, sort_key, image_le, effective_pos, truthy_Z. cbn [fst snd].
  destruct (im_pos a =? 0), (im_pos b =? 0); cbn [negb];
    rewrite orb_true_iff, andb_true_iff, Z.ltb_lt, Z.eqb_eq; tauto.
Qed.

Lemma image_le_total (a b : Image) :
  key_leb (sort_key a) (sort_key b) = false -> image_le b a.
Proof.
  intro H. apply key_leb_image_le.
  unfold key_leb in *.
  apply orb_false_iff in H. destruct H as [H1 H2].
  apply Z.ltb_ge in H1. apply andb_false_iff in H2.
  apply orb_true_iff.
  destruct (Z.eq_dec (fst (sort_key b)) (fst (sort_key a))) as [E | NE].
  - right. apply andb_true_iff. split; [now apply Z.eqb_eq|].
    destruct H2 as [H2 | H2].
    + apply Z.eqb_neq in H2. congruence.
    + destruct (String.leb_total (snd (sort_key a)) (snd (sort_key b))); congruence.
  - left. apply Z.ltb_lt. lia.
Qed.

Lemma image_le_trans (a b c : Image) : image_le a b -> image_le b c -> image_le a c.
Proof.
  unfold image_le. intros [H1 | [H1 L1]] [H2 | [H2 L2]].
  - left. lia.
  - left. lia.
  - left. lia.
  - right. split; [lia|]. eapply string_leb_trans; eassumption.
Qed.

Lemma insert_image_sorted (x : Image) (l : list Image) :
  StronglySorted image_le l -> StronglySorted image_le (insert_image x l).
Proof.
  induction 1 as [|y r Hr IH Hy]; cbn [insert_image].
  - constructor; constructor.
  - destruct (key_leb (sort_key x) (sort_key y)) eqn:E.
    + apply key_leb_image_le in E. constructor.
      * now constructor.
      * constructor; [exact E|].
        rewrite Forall_forall in Hy |- *. intros z Hz.
        eapply image_le_trans; [exact E | now apply Hy].
    + apply image_le_total in E. constructor; [exact IH|].
      rewrite Forall_forall in Hy |- *. intros z Hz.
      apply insert_image_In in Hz. destruct Hz as [-> | Hz]; [exact E | now apply Hy].
Qed.

Lemma sort_images_sorted (l : list Image) : StronglySorted image_le (sort_images l).
Proof.
  induction l as [|x r IH]; cbn [sort_images fold_right].
  - constructor.
  - now apply insert_image_sorted.
Qed.

Lemma sorted_nth (l : list Image) :
  StronglySorted image_le l ->
  forall i j a b,
    (i < j)%nat -> nth_error l i = Some a -> nth_error l j = Some b -> image_le a b.
Proof.
  induction 1 as [|x r Hr IH Hx]; intros i j a b Hij Ha Hb.
  - destruct i; discriminate.
  - destruct j as [|j]; [lia|]. cbn [nth_error] in Hb.
    destruct i as [|i]; cbn [nth_error] in Ha.
    + injection Ha as ->. rewrite Forall_forall in Hx.
      apply Hx. eapply nth_error_In; eassumption.
    + apply (IH i j); [lia | assumption | assumption].
Qed.

(** C7, as the code has it.  After aggregation the images of every candidate
    post are in ascending order of (position, URL), a zero position counting
    as 999999: of two images the earlier has the smaller effective position,
    or the same one and a URL that is not larger.  So an image without
    position comes after every image whose position is non-zero and below
    999999. *)
Theorem images_sorted (meta : list RemoteImageRecord) (p : CandidatePost) :
  In p (build_posts meta) ->
  StronglySorted image_le (images p)
  /\ (forall i j a b,
        (i < j)%nat ->
        nth_error (images p) i = Some a -> nth_error (images p) j = Some b ->
        image_le a b
        /\ (im_pos a = 0 -> im_pos b <> 0 -> 999999 <= im_pos b)).
Proof.
  intro Hp.
  assert (Hs : StronglySorted image_le (images p)).
  { unfold build_posts, post_map_of in Hp.
    apply in_map_iff in Hp. destruct Hp as (kv & <- & Hkv).
    apply in_map_iff in Hkv. destruct Hkv as (kv0 & <- & _).
    rewrite images_make_post. cbn [snd pe_images]. apply sort_images_sorted. }
  split; [exact Hs|].
  intros i j a b Hij Ha Hb.
  pose proof (sorted_nth _ Hs i j a b Hij Ha Hb) as Hle.
  split; [exact Hle|].
  intros Hz Hnz. unfold image_le, effective_pos in Hle.
  rewrite Hz in Hle. cbn in Hle.
  destruct (im_pos b =? 0) eqn:E; [apply Z.eqb_eq in E; contradiction|].
  lia.
Qed.

(** ** Grouping by post URL *)

Lemma post_map_update_keys (pm : list (string * PostEntry)) (pu : string)
  (f : PostEntry -> PostEntry) (k : string) :
  In k (map fst (post_map_update pm pu f)) <-> k = pu \/ In k (map fst pm).
Proof.
  induction pm as [|[k0 v0] r IH]; cbn [post_map_update map In fst].
  - intuition.
  - destruct (String.eqb k0 pu) eqn:E; cbn [map In fst].
    + apply String.eqb_eq in E. subst k0. intuition.
    + rewrite IH. intuition.
Qed.

Lemma post_map_update_nodup (pm : list (string * PostEntry)) (pu : string)
  (f : PostEntry -> PostEntry) :
  NoDup (map fst pm) -> NoDup (map fst (post_map_update pm pu f)).
Proof.
  induction pm as [|[k0 v0] r IH]; cbn [post_map_update map fst]; intro H.
  - constructor; [intros [] | constructor].
  - inversion H as [|? ? Hnotin Hr]; subst.
    destruct (String.eqb k0 pu) eqn:E; cbn [map fst].
    + now constructor.
    + constructor; [|now apply IH].
      rewrite post_map_update_keys. intros [-> | Hin]; [|contradiction].
      rewrite String.eqb_refl in E. discriminate.
Qed.

Lemma post_map_update_new (pm : list (string * PostEntry)) (row : RemoteImageRecord)
  (pu : string) :
  holds (post_map_update pm pu (absorb row)) pu (image_of_row row).
Proof.
  induction pm as [|[k0 v0] r IH]; cbn [post_map_update].
  - eexists. split; [now left|]. cbn. now left.
  - destruct (String.eqb k0 pu) eqn:E.
    + apply String.eqb_eq in E. subst k0.
      eexists. split; [now left|]. cbn [absorb pe_images].
      apply in_or_app. right. now left.
    + destruct IH as (e & He & Hi). exists e. split; [now right | exact Hi].
Qed.

Lemma post_map_update_keeps (pm : list (string * PostEntry)) (row : RemoteImageRecord)
  (pu k : string) (im : Image) :
  holds pm k im -> holds (post_map_update pm pu (absorb row)) k im.
Proof.
  intros (e & He & Hi).
  induction pm as [|[k0 v0] r IH]; cbn [post_map_update]; [destruct He|].
  destruct He as [He | He].
  - injection He as -> ->. destruct (String.eqb k pu).
    + eexists. split; [now left|]. cbn [absorb pe_images].
      apply in_or_app. now left.
    + exists e. split; [now left | exact Hi].
  - destruct (String.eqb k0 pu).
    + exists e. split; [now right | exact Hi].
    + destruct (IH He) as (e' & He' & Hi'). exists e'. split; [now right | exact Hi'].
Qed.

Lemma group_row_keeps (pm : list (string * PostEntry)) (row : RemoteImageRecord)
  (k : string) (im : Image) :
  holds pm k im -> holds (group_row pm row) k im.
Proof.
  intro H. unfold group_row.
  destruct (negb (truthy (r_image_url row)) || negb (host_ok (r_image_url row)));
    [exact H | now apply post_map_update_keeps].
Qed.

Lemma group_row_nodup (pm : list (string * PostEntry)) (row : RemoteImageRecord) :
  NoDup (map fst pm) -> NoDup (map fst (group_row pm row)).
Proof.
  intro H. unfold group_row.
  destruct (negb (truthy (r_image_url row)) || negb (host_ok (r_image_url row)));
    [exact H | now apply post_map_update_nodup].
Qed.

Lemma fold_group_keeps (meta : list RemoteImageRecord) (k : string) (im : Image) :
  forall pm, holds pm k im -> holds (fold_left group_row meta pm) k im.
Proof.
  induction meta as [|row r IH]; intros pm H; cbn [fold_left];
    [exact H | apply IH, group_row_keeps, H].
Qed.

Lemma fold_group_nodup (meta : list RemoteImageRecord) :
  forall pm, NoDup (map fst pm) -> NoDup (map fst (fold_left group_row meta pm)).
Proof.
  induction meta as [|row r IH]; intros pm H; cbn [fold_left];
    [exact H | apply IH, group_row_nodup, H].
Qed.

Lemma fold_group_holds (meta : list RemoteImageRecord) (row : RemoteImageRecord) :
  In row meta ->
  truthy (r_image_url row) = true -> host_ok (r_image_url row) = true ->
  forall pm,
    holds (fold_left group_row meta pm) (normalize (r_post_url row)) (image_of_row row).
Proof.
  intros Hin Ht Hh. induction meta as [|row0 r IH]; [destruct Hin|].
  intro pm. cbn [fold_left]. destruct Hin as [-> | Hin].
  - apply fold_group_keeps. unfold group_row. rewrite Ht, Hh. cbn [negb orb].
    apply post_map_update_new.
  - now apply IH.
Qed.

Lemma build_posts_urls (meta : list RemoteImageRecord) :
  map post_url (build_posts meta) = map fst (fold_left group_row meta []).
Proof.
  unfold build_posts, post_map_of. rewrite !map_map.
  apply map_ext. intro kv. now rewrite post_url_make_post.
Qed.

Lemma nodup_map_inj {A B : Type} (f : A -> B) (l : list A) (a b : A) :
  NoDup (map f l) -> In a l -> In b l -> f a = f b -> a = b.
Proof.
  induction l as [|x r IH]; cbn [map]; intros Hnd Ha Hb Hf; [destruct Ha|].
  inversion Hnd as [|? ? Hnotin Hr]; subst.
  destruct Ha as [-> | Ha], Hb as [-> | Hb].
  - reflexivity.
  - exfalso. apply Hnotin. rewrite Hf. now apply in_map.
  - exfalso. apply Hnotin. rewrite <- Hf. now apply in_map.
  - now apply IH.
Qed.

(** C6, as the code has it.  The aggregator groups the surviving records by
    their post URL after whitespace normalisation only ([normalize]: trimmed,
    runs of whitespace collapsed); the rest of the URL, query string and
    fragment included, is part of the key.  The candidate posts have pairwise
    distinct URLs; the image of every record that passes the filter is in the
    post whose URL is the normalised post URL of the record; so two surviving
    records land in the same candidate post exactly when their post URLs are
    equal after whitespace normalisation. *)
Theorem grouped_by_normalized_url (meta : list RemoteImageRecord) :
  NoDup (map post_url (build_posts meta))
  /\ (forall row,
        In row meta ->
        truthy (r_image_url row) = true -> host_ok (r_image_url row) = true ->
        exists p,
          In p (build_posts meta)
          /\ post_url p = normalize (r_post_url row)
          /\ In (image_of_row row) (images p))
  /\ (forall p1 p2 row1 row2,
        In p1 (build_posts meta) -> In p2 (build_posts meta) ->
        post_url p1 = normalize (r_post_url row1) ->
        post_url p2 = normalize (r_post_url row2) ->
        (p1 = p2 <-> normalize (r_post_url row1) = normalize (r_post_url row2))).
Proof.
  assert (Hnd : NoDup (map post_url (build_posts meta))).
  { rewrite build_posts_urls. apply fold_group_nodup. constructor. }
  split; [exact Hnd|]. split.
  - intros row Hin Ht Hh.
    destruct (fold_group_holds meta row Hin Ht Hh []) as (e & He & Hi).
    set (e' := {| pe_post_title := pe_post_title e; pe_post_date := pe_post_date e;
                  pe_labels := pe_labels e; pe_source := pe_source e;
                  pe_description := pe_description e;
                  pe_images := sort_images (pe_images e) |}).
    exists (make_post (normalize (r_post_url row), e')).
    split; [|split].
    + unfold build_posts, post_map_of. apply in_map.
      apply in_map_iff. exists (normalize (r_post_url row), e). now split.
    + now rewrite post_url_make_post.
    + rewrite images_make_post. cbn [snd e' pe_images]. now apply sort_images_In.
  - intros p1 p2 row1 row2 H1 H2 U1 U2. split.
    + intros ->. congruence.
    + intro E. apply (nodup_map_inj post_url (build_posts meta)); congruence.
Qed.

(** ** Synonym folding *)

Lemma az09_not_space (c : ascii) : is_az09 c = true -> is_space c = false.
Proof.
  destruct c as [b0 b1 b2 b3 b4 b5 b6 b7].
  destruct b0, b1, b2, b3, b4, b5, b6, b7; vm_compute; congruence.
Qed.

Lemma az09_lower (c : ascii) : is_az09 c = true -> lower_char c = c.
Proof.
  destruct c as [b0 b1 b2 b3 b4 b5 b6 b7].
  destruct b0, b1, b2, b3, b4, b5, b6, b7; vm_compute; congruence.
Qed.

Lemma blank_other_classes (s : string) :
  sforall (fun c => is_space c || is_az09 c) (blank_other s) = true.
Proof.
  unfold blank_other. induction s as [|c r IH]; cbn [smap sforall]; [reflexivity|].
  rewrite IH, andb_true_r. unfold not_az09_space.
  destruct (is_az09 c) eqn:Ea; cbn [orb negb].
  - rewrite Ea. apply orb_true_r.
  - destruct (is_space c) eqn:Es; cbn [negb]; [now rewrite Es | reflexivity].
Qed.

Lemma split_tokens (s : string) :
  sforall (fun c => is_space c || is_az09 c) s = true -> Forall token (split s).
Proof.
  induction s as [|c r IH]; cbn [split sforall]; [constructor|].
  intro H. apply andb_true_iff in H. destruct H as [Hc Hr].
  specialize (IH Hr).
  destruct (is_space c) eqn:Es; [exact IH|]. cbn [orb] in Hc.
  assert (Hone : token (String c EmptyString)).
  { split; [reflexivity|]. cbn. now rewrite Hc. }
  destruct r as [|d r']; [now constructor|].
  destruct (is_space d).
  - now constructor.
  - destruct (split (String d r')) as [|w ws]; [now constructor|].
    inversion IH as [|? ? [Hw1 Hw2] Hws]; subst.
    constructor; [|exact Hws]. split; [reflexivity|]. cbn. now rewrite Hc.
Qed.

Lemma split_token_alone (t : string) : token t -> split t = [t].
Proof.
  intros [Hne Hall]. induction t as [|c r IH]; [discriminate|].
  cbn [sforall] in Hall. apply andb_true_iff in Hall. destruct Hall as [Hc Hr].
  cbn [split]. rewrite (az09_not_space c Hc).
  destruct r as [|d r']; [reflexivity|].
  assert (Hd : is_az09 d = true).
  { cbn [sforall] in Hr. now apply andb_true_iff in Hr. }
  rewrite (az09_not_space d Hd). now rewrite (IH eq_refl Hr).
Qed.

Lemma split_token_app (t s : string) :
  token t -> split (t ++ String " " s) = t :: split s.
Proof.
  intros [Hne Hall]. induction t as [|c r IH]; [discriminate|].
  cbn [sforall] in Hall. apply andb_true_iff in Hall. destruct Hall as [Hc Hr].
  cbn [String.append split]. rewrite (az09_not_space c Hc).
  destruct r as [|d r'].
  - cbn [String.append]. reflexivity.
  - assert (Hd : is_az09 d = true).
    { cbn [sforall] in Hr. now apply andb_true_iff in Hr. }
    cbn [String.append]. rewrite (az09_not_space d Hd).
    cbn [String.append] in IH. now rewrite (IH eq_refl Hr).
Qed.

Lemma split_join (ts : list string) : Forall token ts -> split (join " " ts) = ts.
Proof.
  unfold join. induction 1 as [|t r Ht Hr IH]; [reflexivity|].
  destruct r as [|t2 r'].
  - cbn [String.concat]. now apply split_token_alone.
  - change (String.concat " " (t :: t2 :: r'))
      with (t ++ String " " (String.concat " " (t2 :: r'))).
    rewrite (split_token_app _ _ Ht). now rewrite IH.
Qed.

Lemma sforall_app (p : ascii -> bool) (a b : string) :
  sforall p (a ++ b) = sforall p a && sforall p b.
Proof.
  induction a as [|c r IH]; cbn [String.append sforall]; [reflexivity|].
  now rewrite IH, andb_assoc.
Qed.

Lemma join_classes (ts : list string) :
  Forall token ts ->
  sforall (fun c => is_az09 c || Ascii.eqb c " ") (join " " ts) = true.
Proof.
  assert (Htok : forall t, token t ->
                           sforall (fun c => is_az09 c || Ascii.eqb c " ") t = true).
  { intros t [_ Hall]. induction t as [|c r IH]; [reflexivity|].
    cbn [sforall] in *. apply andb_true_iff in Hall. destruct Hall as [Hc Hr].
    now rewrite Hc, (IH Hr). }
  unfold join. induction 1 as [|t r Ht Hr IH]; [reflexivity|].
  destruct r as [|t2 r'].
  - cbn [String.concat]. now apply Htok.
  - change (String.concat " " (t :: t2 :: r'))
      with (t ++ String " " (String.concat " " (t2 :: r'))).
    rewrite sforall_app. cbn [sforall]. rewrite (Htok _ Ht), IH. reflexivity.
Qed.

(** Folded text is a fixed point of [lower] and of the blanking of other
    characters. *)
Lemma clean_fixed (s : string) :
  sforall (fun c => is_az09 c || Ascii.eqb c " ") s = true ->
  blank_other (lower s) = s.
Proof.
  unfold blank_other, lower. induction s as [|c r IH]; cbn [smap sforall];
    [reflexivity|].
  intro H. apply andb_true_iff in H. destruct H as [Hc Hr].
  rewrite (IH Hr). f_equal.
  destruct (is_az09 c) eqn:Ea.
  - rewrite (az09_lower c Ea). unfold not_az09_space. now rewrite Ea.
  - cbn [orb] in Hc. apply Ascii.eqb_eq in Hc. subst c. reflexivity.
Qed.

Lemma dict_get_In {V : Type} (d : list (string * V)) (k : string) (v : V) :
  dict_get d k = Some v -> In (k, v) d.
Proof.
  induction d as [|[k' v'] r IH]; cbn [dict_get]; [discriminate|].
  destruct (String.eqb k k') eqn:E.
  - intro H. injection H as ->. apply String.eqb_eq in E. subst. now left.
  - intro H. right. now apply IH.
Qed.

(** Every replacement of the table is a token that is not itself a key. *)
Lemma SYNONYMS_values :
  Forall (fun kv => token (snd kv) /\ dict_get SYNONYMS (snd kv) = None) SYNONYMS.
Proof.
  unfold SYNONYMS. repeat constructor.
Qed.

Lemma synonym_cases (t : string) :
  synonym t = t /\ dict_get SYNONYMS t = None
  \/ token (synonym t) /\ dict_get SYNONYMS (synonym t) = None.
Proof.
  unfold synonym. destruct (dict_get SYNONYMS t) as [v|] eqn:E.
  - right. apply dict_get_In in E.
    pose proof SYNONYMS_values as H. rewrite Forall_forall in H.
    exact (H _ E).
  - now left.
Qed.

Lemma synonym_token (t : string) : token t -> token (synonym t).
Proof.
  intro Ht. destruct (synonym_cases t) as [[-> _] | [H _]]; assumption.
Qed.

Lemma synonym_idempotent (t : string) : synonym (synonym t) = synonym t.
Proof.
  destruct (synonym_cases t) as [[E _] | [_ E]].
  - now rewrite E.
  - unfold synonym at 1. now rewrite E.
Qed.

(** The output of one pass is a list of tokens joined by single spaces. *)
Lemma folded_tokens (x : string) :
  Forall token (map synonym (split (blank_other (lower x)))).
Proof.
  pose proof (split_tokens _ (blank_other_classes (lower x))) as H.
  induction H as [|t r Ht Hr IH]; cbn [map]; constructor;
    [now apply synonym_token | exact IH].
Qed.

(** C8 (synonym folding is idempotent).  For every text, folding the folded
    text gives the folded text again. *)
Theorem apply_synonyms_idempotent (x : string) :
  apply_synonyms_tokenwise (apply_synonyms_tokenwise x)
  = apply_synonyms_tokenwise x.
Proof.
  unfold apply_synonyms_tokenwise at 1 2.
  set (ts := map synonym (split (blank_other (lower x)))).
  pose proof (folded_tokens x) as Hts. fold ts in Hts.
  rewrite (clean_fixed _ (join_classes ts Hts)).
  rewrite (split_join ts Hts).
  unfold apply_synonyms_tokenwise. fold ts.
  f_equal. unfold ts. rewrite map_map.
  apply map_ext. intro t. apply synonym_idempotent.
Qed.

(** ** More on the text normalizer *)

Lemma split_empty (s : string) : split s = [] <-> sforall is_space s = true.
Proof.
  induction s as [|c r IH]; cbn [split sforall]; [tauto|].
  destruct (is_space c); cbn [andb].
  - exact IH.
  - split; [|discriminate]. destruct r as [|d r']; [discriminate|].
    destruct (is_space d); [discriminate|].
    destruct (split (String d r')); discriminate.
Qed.

Lemma rstrip_empty (s : string) : rstrip s = EmptyString <-> sforall is_space s = true.
Proof.
  induction s as [|c r IH]; cbn [rstrip sforall]; [tauto|].
  destruct (rstrip r) as [|x xs] eqn:E.
  - destruct (is_space c); cbn [andb]; [|split; discriminate].
    split; intros _; [now apply IH | reflexivity].
  - split; [discriminate|]. intro H. apply andb_true_iff in H.
    destruct H as [_ H]. apply IH in H. discriminate.
Qed.

Lemma rstrip_cons_word (c : ascii) (r : string) :
  is_space c = false -> rstrip (String c r) = String c (rstrip r).
Proof.
  intro H. cbn [rstrip]. rewrite H. now destruct (rstrip r).
Qed.

Lemma split_lstrip (s : string) : split (lstrip s) = split s.
Proof.
  induction s as [|c r IH]; [reflexivity|].
  cbn [lstrip]. destruct (is_space c) eqn:E; [|reflexivity].
  rewrite IH. cbn [split]. now rewrite E.
Qed.

Lemma join_cons_char (c : ascii) (w : string) (ws : list string) :
  join " " (String c w :: ws) = String c (join " " (w :: ws)).
Proof.
  unfold join. destruct ws; reflexivity.
Qed.

(** Collapsing the runs of a right-stripped text, from inside a run and from
    outside one, against splitting and joining. *)
Lemma sub_runs_rstrip (s : string) :
  sub_runs is_space true (rstrip s) = join " " (split s)
  /\ sub_runs is_space false (rstrip s)
     = match s with
       | String c _ =>
           if is_space c && truthy (rstrip s)
           then String " " (join " " (split s)) else join " " (split s)
       | EmptyString => EmptyString
       end.
Proof.
  induction s as [|c r [IHt IHf]]; [split; reflexivity|].
  destruct (is_space c) eqn:Ec.
  - (* a space: swallowed inside a run, one blank outside *)
    cbn [rstrip split]. rewrite Ec.
    destruct (rstrip r) as [|x xs] eqn:Er.
    + cbn [sub_runs truthy andb] in *. rewrite <- IHt. split; reflexivity.
    + cbn [sub_runs truthy andb] in *. rewrite Ec, IHt. split; reflexivity.
  - rewrite (rstrip_cons_word c r Ec). cbn [sub_runs andb]. rewrite Ec.
    assert (H : String c (sub_runs is_space false (rstrip r))
                = join " " (split (String c r))).
    { rewrite IHf. cbn [split]. rewrite Ec.
      destruct r as [|d r']; [reflexivity|].
      destruct (is_space d) eqn:Ed; cbn [andb].
      - destruct (rstrip (String d r')) as [|x xs] eqn:Er; cbn [truthy].
        + apply rstrip_empty in Er. apply split_empty in Er. rewrite Er. reflexivity.
        + destruct (split (String d r')) as [|w ws] eqn:Es.
          * apply split_empty in Es. apply rstrip_empty in Es. congruence.
          * reflexivity.
      - destruct (split (String d r')) as [|w ws] eqn:Es.
        + apply split_empty in Es. cbn [sforall] in Es. rewrite Ed in Es. discriminate.
        + now rewrite join_cons_char. }
    split; exact H.
Qed.

Lemma normalize_join_split (s : string) : normalize s = join " " (split s).
Proof.
  unfold normalize, strip.
  destruct (sub_runs_rstrip (lstrip s)) as [_ H]. rewrite H, split_lstrip.
  destruct (lstrip s) as [|c r] eqn:E; [now rewrite <- split_lstrip, E|].
  assert (Hc : is_space c = false).
  { clear H. revert c r E. induction s as [|x s' IH]; intros c r E; [discriminate|].
    cbn [lstrip] in E. destruct (is_space x) eqn:Ex.
    - eapply IH; eassumption.
    - injection E as <- _. exact Ex. }
  now rewrite Hc.
Qed.

(** X1.  [normalize(s)] is [" ".join(s.split())]: the words of [s] in order,
    separated by single spaces. *)
Theorem normalize_is_join_split (s : string) : normalize s = join " " (split s).
Proof.
  apply normalize_join_split.
Qed.

Lemma split_words (s : string) : Forall word (split s).
Proof.
  induction s as [|c r IH]; cbn [split]; [constructor|].
  destruct (is_space c) eqn:Es; [exact IH|].
  assert (Hone : word (String c EmptyString)).
  { split; [reflexivity|]. cbn. now rewrite Es. }
  destruct r as [|d r']; [now constructor|].
  destruct (is_space d).
  - now constructor.
  - destruct (split (String d r')) as [|w ws]; [now constructor|].
    inversion IH as [|? ? [Hw1 Hw2] Hws]; subst.
    constructor; [|exact Hws]. split; [reflexivity|]. cbn. now rewrite Es, Hw2.
Qed.

Lemma word_head (c : ascii) (r : string) :
  word (String c r) -> is_space c = false /\ (r = EmptyString \/ word r).
Proof.
  intros [_ H]. cbn [sforall] in H. apply andb_true_iff in H. destruct H as [Hc Hr].
  apply negb_true_iff in Hc. split; [exact Hc|].
  destruct r as [|d r']; [now left | right; now split].
Qed.

Lemma split_word_alone (t : string) : word t -> split t = [t].
Proof.
  induction t as [|c r IH]; intro Hw; [destruct Hw; discriminate|].
  destruct (word_head c r Hw) as [Hc [-> | Hr]]; cbn [split]; rewrite Hc;
    [reflexivity|].
  destruct r as [|d r']; [reflexivity|].
  destruct (word_head d r' Hr) as [Hd _]. rewrite Hd. now rewrite (IH Hr).
Qed.

Lemma split_word_app (t s : string) :
  word t -> split (t ++ String " " s) = t :: split s.
Proof.
  induction t as [|c r IH]; intro Hw; [destruct Hw; discriminate|].
  destruct (word_head c r Hw) as [Hc [-> | Hr]]; cbn [String.append split];
    rewrite Hc; [reflexivity|].
  destruct r as [|d r']; [reflexivity|].
  destruct (word_head d r' Hr) as [Hd _].
  cbn [String.append]. rewrite Hd. cbn [String.append] in IH. now rewrite (IH Hr).
Qed.

Lemma split_join_words (ws : list string) :
  Forall word ws -> split (join " " ws) = ws.
Proof.
  unfold join. induction 1 as [|t r Ht Hr IH]; [reflexivity|].
  destruct r as [|t2 r'].
  - cbn [String.concat]. now apply split_word_alone.
  - change (String.concat " " (t :: t2 :: r'))
      with (t ++ String " " (String.concat " " (t2 :: r'))).
    rewrite (split_word_app _ _ Ht). now rewrite IH.
Qed.

(** X2.  Normalising is idempotent, and it keeps the words: splitting the
    normalised text gives the words of the original. *)
Theorem normalize_idempotent (s : string) :
  normalize (normalize s) = normalize s /\ split (normalize s) = split s.
Proof.
  rewrite !normalize_join_split.
  rewrite (split_join_words _ (split_words s)). split; reflexivity.
Qed.

(** *** Slugs *)

Lemma token_word (t : string) : token t -> word t.
Proof.
  intros [Hne Hall]. split; [exact Hne|]. clear Hne.
  induction t as [|c r IH]; [reflexivity|].
  cbn [sforall] in *. apply andb_true_iff in Hall. destruct Hall as [Hc Hr].
  now rewrite (az09_not_space c Hc), (IH Hr).
Qed.

Lemma tokens_words (ts : list string) : Forall token ts -> Forall word ts.
Proof.
  induction 1; constructor; [now apply token_word | assumption].
Qed.

Lemma lower_fixed (s : string) :
  sforall (fun c => is_az09 c || Ascii.eqb c " ") s = true -> lower s = s.
Proof.
  unfold lower. induction s as [|c r IH]; cbn [smap sforall]; [reflexivity|].
  intro H. apply andb_true_iff in H. destruct H as [Hc Hr].
  rewrite (IH Hr). f_equal.
  destruct (is_az09 c) eqn:Ea; [now apply az09_lower|].
  cbn [orb] in Hc. apply Ascii.eqb_eq in Hc. now subst c.
Qed.

Lemma sub_runs_none (cls : ascii -> bool) (s : string) :
  sforall (fun c => negb (cls c)) s = true ->
  forall b, sub_runs cls b s = s.
Proof.
  induction s as [|c r IH]; cbn [sub_runs sforall]; [reflexivity|].
  intros H b. apply andb_true_iff in H. destruct H as [Hc Hr].
  apply negb_true_iff in Hc. now rewrite Hc, (IH Hr).
Qed.

Lemma sforall_impl (p q : ascii -> bool) (s : string) :
  (forall c, p c = true -> q c = true) ->
  sforall p s = true -> sforall q s = true.
Proof.
  intro Hpq. induction s as [|c r IH]; cbn [sforall]; [reflexivity|].
  intro H. apply andb_true_iff in H. destruct H as [Hc Hr].
  now rewrite (Hpq c Hc), (IH Hr).
Qed.

Lemma match_classes_get (p : list (ascii -> bool)) :
  forall s r i q,
    match_classes p s = Some r -> nth_error p i = Some q ->
    exists c, String.get i s = Some c /\ q c = true.
Proof.
  induction p as [|q0 p IH]; intros s r i q Hm Hq.
  - destruct i; discriminate.
  - destruct s as [|c s']; [discriminate|]. cbn [match_classes] in Hm.
    destruct (q0 c) eqn:Eq; [|discriminate].
    destruct i as [|i]; cbn [nth_error] in Hq.
    + injection Hq as <-. exists c. now split.
    + cbn [String.get]. eapply IH; eassumption.
Qed.

Lemma sforall_get (p : ascii -> bool) (s : string) :
  sforall p s = true -> forall i c, String.get i s = Some c -> p c = true.
Proof.
  induction s as [|x r IH]; cbn [sforall]; intros H i c Hg; [discriminate|].
  apply andb_true_iff in H. destruct H as [Hx Hr].
  destruct i as [|i]; cbn [String.get] in Hg.
  - injection Hg as <-. exact Hx.
  - eapply IH; eassumption.
Qed.

(** A text of the classes [a-z0-9] and blank has no date prefix to drop. *)
Lemma drop_leading_date_fixed (s : string) :
  sforall (fun c => is_az09 c || Ascii.eqb c " ") s = true ->
  drop_leading_date s = s.
Proof.
  intro H. unfold drop_leading_date.
  destruct (match_classes DATE_CLASSES s) as [r|] eqn:E; [|reflexivity].
  exfalso.
  destruct (match_classes_get _ _ _ 4%nat (is_char "-") E eq_refl) as (c & Hg & Hc).
  apply Ascii.eqb_eq in Hc. subst c.
  pose proof (sforall_get _ _ H _ _ Hg) as Hd. cbn in Hd. discriminate.
Qed.

Lemma sub_runs_word_app (t s : string) :
  sforall (fun c => negb (is_space c)) t = true ->
  sub_runs is_space false (t ++ s) = t ++ sub_runs is_space false s.
Proof.
  induction t as [|c r IH]; cbn [String.append sforall]; [reflexivity|].
  intro H. apply andb_true_iff in H. destruct H as [Hc Hr].
  apply negb_true_iff in Hc. cbn [sub_runs]. now rewrite Hc, (IH Hr).
Qed.

Lemma sub_runs_after_space (t s : string) :
  word t -> sub_runs is_space true (t ++ s) = sub_runs is_space false (t ++ s).
Proof.
  intros [Hne H]. destruct t as [|c r]; [discriminate|].
  cbn [sforall] in H. apply andb_true_iff in H. destruct H as [Hc _].
  apply negb_true_iff in Hc. cbn [String.append sub_runs]. now rewrite Hc.
Qed.

Lemma rstrip_word_app (t s : string) :
  sforall (fun c => negb (is_space c)) t = true ->
  rstrip (t ++ s) = t ++ rstrip s.
Proof.
  induction t as [|c r IH]; cbn [String.append sforall]; [reflexivity|].
  intro H. apply andb_true_iff in H. destruct H as [Hc Hr].
  apply negb_true_iff in Hc. now rewrite (rstrip_cons_word _ _ Hc), (IH Hr).
Qed.

Lemma append_empty_r (s : string) : s ++ "" = s.
Proof.
  induction s as [|c r IH]; cbn [String.append]; [reflexivity | now rewrite IH].
Qed.

(** Words joined by single blanks are left alone by the collapsing of
    whitespace runs and by stripping. *)
Lemma joined_words_fixed (ws : list string) :
  Forall word ws ->
  sub_runs is_space false (join " " ws) = join " " ws
  /\ rstrip (join " " ws) = join " " ws
  /\ lstrip (join " " ws) = join " " ws
  /\ (ws <> [] -> truthy (join " " ws) = true).
Proof.
  unfold join. induction 1 as [|t r Ht Hr IH]; [now repeat split|].
  destruct IH as (IHs & IHr & _ & IHne).
  pose proof Ht as [Hne Hall].
  assert (Hl : forall s, lstrip (t ++ s) = t ++ s).
  { intro s. destruct t as [|c t']; [discriminate|].
    cbn [sforall] in Hall. apply andb_true_iff in Hall. destruct Hall as [Hc _].
    apply negb_true_iff in Hc. cbn [String.append lstrip]. now rewrite Hc. }
  assert (Ht' : forall s, truthy (t ++ s) = true).
  { intro s. destruct t; [discriminate | reflexivity]. }
  destruct r as [|t2 r'].
  - cbn [String.concat]. repeat split.
    + rewrite <- (append_empty_r t). now rewrite sub_runs_word_app.
    + rewrite <- (append_empty_r t). now rewrite rstrip_word_app.
    + rewrite <- (append_empty_r t). apply Hl.
    + intros _. rewrite <- (append_empty_r t). apply Ht'.
  - change (String.concat " " (t :: t2 :: r'))
      with (t ++ String " " (String.concat " " (t2 :: r'))).
    set (rest := String.concat " " (t2 :: r')) in *.
    assert (Hrest : truthy rest = true) by (apply IHne; discriminate).
    repeat split.
    + rewrite (sub_runs_word_app _ _ Hall). f_equal. cbn [sub_runs].
      change (is_space " ") with true. cbv iota. f_equal.
      inversion Hr as [|? ? Ht2 _]; subst.
      unfold rest. destruct r' as [|t3 r''].
      * cbn [String.concat]. rewrite <- (append_empty_r t2).
        rewrite (sub_runs_after_space _ _ Ht2). rewrite (append_empty_r t2).
        exact IHs.
      * change (String.concat " " (t2 :: t3 :: r''))
          with (t2 ++ String " " (String.concat " " (t3 :: r''))) in *.
        rewrite (sub_runs_after_space _ _ Ht2). exact IHs.
    + rewrite (rstrip_word_app _ _ Hall). f_equal. cbn [rstrip]. rewrite IHr.
      destruct rest; [discriminate | reflexivity].
    + apply Hl.
    + intros _. apply Ht'.
Qed.

Lemma synonym_key_free (t : string) :
  token t -> token (synonym t) /\ dict_get SYNONYMS (synonym t) = None.
Proof.
  intro Ht. destruct (synonym_cases t) as [[E1 E2] | H]; [|exact H].
  rewrite E1. now split.
Qed.

Lemma apply_synonyms_folded (x : string) : folded (apply_synonyms_tokenwise x).
Proof.
  unfold apply_synonyms_tokenwise.
  exists (map synonym (split (blank_other (lower x)))). split; [|reflexivity].
  pose proof (split_tokens _ (blank_other_classes (lower x))) as H.
  induction H as [|t r Ht Hr IH]; cbn [map]; constructor;
    [now apply synonym_key_free | exact IH].
Qed.

Lemma folded_apply_synonyms (y : string) :
  folded y -> apply_synonyms_tokenwise y = y.
Proof.
  intros (ts & Hts & ->).
  assert (Htok : Forall token ts).
  { eapply Forall_impl; [|exact Hts]. now intros t [H _]. }
  unfold apply_synonyms_tokenwise.
  rewrite (clean_fixed _ (join_classes ts Htok)), (split_join ts Htok).
  f_equal. clear Htok. induction Hts as [|t r [_ Ht] Hr IH]; [reflexivity|].
  cbn [map]. rewrite IH. f_equal. unfold synonym. now rewrite Ht.
Qed.

(** X3.  A slug is folded text: lower-case alphanumeric tokens, none of
    which is a key of the synonym table, separated by single blanks. *)
Theorem slugify_folded (text : string) : folded (slugify text).
Proof.
  unfold slugify. apply apply_synonyms_folded.
Qed.

(** X4.  Folded text is a fixed point of [slugify]; so slugging is
    idempotent. *)
Theorem slugify_idempotent (text : string) :
  slugify (slugify text) = slugify text
  /\ forall y, folded y -> slugify y = y.
Proof.
  assert (Hfix : forall y, folded y -> slugify y = y).
  { intros y Hy. pose proof Hy as (ts & Hts & E).
    assert (Htok : Forall token ts).
    { eapply Forall_impl; [|exact Hts]. now intros t [H _]. }
    pose proof (join_classes ts Htok) as Hcls. rewrite <- E in Hcls.
    pose proof (joined_words_fixed ts (tokens_words ts Htok)) as (Hs & Hr & Hl & _).
    rewrite <- E in Hs, Hr, Hl.
    unfold slugify.
    assert (Hn : normalize y = y).
    { unfold normalize, strip. now rewrite Hl, Hr, Hs. }
    rewrite Hn, (lower_fixed y Hcls), (drop_leading_date_fixed y Hcls).
    assert (Hs3 : sub_runs not_az09_space false y = y).
    { apply sub_runs_none. eapply sforall_impl; [|exact Hcls].
      intros c Hc. unfold not_az09_space. rewrite negb_involutive.
      apply orb_true_iff in Hc. destruct Hc as [Hc | Hc]; [now rewrite Hc|].
      apply Ascii.eqb_eq in Hc. subst c. apply orb_true_r. }
    rewrite Hs3, Hs. unfold strip. rewrite Hl, Hr.
    now apply folded_apply_synonyms. }
  split; [apply Hfix; unfold slugify; apply apply_synonyms_folded | exact Hfix].
Qed.

(** *** Token sets and the Jaccard similarity *)

Lemma mem_In (x : string) (l : list string) : mem x l = true <-> In x l.
Proof.
  unfold mem. rewrite existsb_exists. split.
  - intros (y & Hy & E). apply String.eqb_eq in E. now subst.
  - intro H. exists x. split; [exact H | apply String.eqb_refl].
Qed.

Lemma dedup_In (x : string) (l : list string) : In x (dedup l) <-> In x l.
Proof.
  induction l as [|y r IH]; cbn [dedup In]; [tauto|].
  destruct (mem y r) eqn:E; cbn [In]; rewrite IH; [|tauto].
  apply mem_In in E. split; [tauto|]. intros [-> | H]; assumption.
Qed.

Lemma dedup_NoDup (l : list string) : NoDup (dedup l).
Proof.
  induction l as [|y r IH]; cbn [dedup]; [constructor|].
  destruct (mem y r) eqn:E; [exact IH|].
  constructor; [|exact IH]. rewrite dedup_In. intro H.
  apply mem_In in H. congruence.
Qed.

Lemma same_elements_length (l l' : list string) :
  NoDup l -> NoDup l' -> (forall x, In x l <-> In x l') ->
  List.length l = List.length l'.
Proof.
  intros H H' Hin. apply Permutation_length. now apply NoDup_Permutation.
Qed.

Lemma inter_size_spec (a b : list string) :
  NoDup (filter (fun x => mem x b) (dedup a))
  /\ forall x, In x (filter (fun x => mem x b) (dedup a)) <-> In x a /\ In x b.
Proof.
  split; [apply NoDup_filter, dedup_NoDup|].
  intro x. now rewrite filter_In, dedup_In, mem_In.
Qed.

Lemma inter_size_comm (a b : list string) : inter_size a b = inter_size b a.
Proof.
  unfold inter_size.
  destruct (inter_size_spec a b) as [N1 I1], (inter_size_spec b a) as [N2 I2].
  apply same_elements_length; [assumption | assumption|].
  intro x. rewrite I1, I2. tauto.
Qed.

Lemma union_size_comm (a b : list string) : union_size a b = union_size b a.
Proof.
  unfold union_size. apply same_elements_length; try apply dedup_NoDup.
  intro x. rewrite !dedup_In, !in_app_iff. tauto.
Qed.

Lemma inter_le_union (a b : list string) : (inter_size a b <= union_size a b)%nat.
Proof.
  unfold inter_size, union_size.
  apply NoDup_incl_length; [apply NoDup_filter, dedup_NoDup|].
  intros x Hx. apply filter_In in Hx. destruct Hx as [Hx _].
  rewrite dedup_In in Hx |- *. apply in_or_app. now left.
Qed.

Lemma union_size_pos (a b : list string) : a <> [] -> (0 < union_size a b)%nat.
Proof.
  destruct a as [|x r]; [congruence|]. intros _. unfold union_size.
  assert (H : In x (dedup ((x :: r) ++ b))) by (apply dedup_In; now left).
  destruct (dedup ((x :: r) ++ b)); [destruct H | cbn; lia].
Qed.

Lemma inter_size_self (a : list string) : inter_size a a = union_size a a.
Proof.
  unfold inter_size, union_size.
  destruct (inter_size_spec a a) as [N I].
  apply same_elements_length; [exact N | apply dedup_NoDup|].
  intro x. rewrite I, dedup_In, in_app_iff. tauto.
Qed.

Lemma jaccard_range (a b : string) : (0 <= jaccard a b <= 1)%Q.
Proof.
  split; [apply jaccard_nonneg|]. unfold jaccard.
  destruct (tokens a) as [|x xs] eqn:Ea; [lra|].
  destruct (tokens b) as [|y ys] eqn:Eb; [lra|].
  pose proof (inter_le_union (x :: xs) (y :: ys)) as Hle.
  assert (Hpos : (0 < union_size (x :: xs) (y :: ys))%nat)
    by (apply union_size_pos; discriminate).
  apply Qle_shift_div_r.
  - change 0%Q with (inject_Z 0). rewrite <- Zlt_Qlt. lia.
  - rewrite Qmult_1_l. rewrite <- Zle_Qle. lia.
Qed.

(** X5.  The Jaccard similarity lies between 0 and 1. *)
Theorem jaccard_unit (a b : string) : (0 <= jaccard a b)%Q /\ (jaccard a b <= 1)%Q.
Proof.
  apply jaccard_range.
Qed.

(** X6.  The Jaccard similarity is symmetric. *)
Theorem jaccard_symmetric (a b : string) : jaccard a b = jaccard b a.
Proof.
  unfold jaccard.
  destruct (tokens a) as [|x xs], (tokens b) as [|y ys]; try reflexivity.
  now rewrite inter_size_comm, union_size_comm.
Qed.

(** X7.  A text is fully similar to itself as soon as it has a token (of
    three characters or more); a text without tokens has similarity 0 to
    everything, itself included. *)
Theorem jaccard_self (a : string) :
  (jaccard a a == match tokens a with [] => 0 | _ :: _ => 1 end)%Q
  /\ (tokens a = [] -> forall b, jaccard a b = 0%Q /\ jaccard b a = 0%Q).
Proof.
  split.
  - unfold jaccard. destruct (tokens a) as [|x xs] eqn:Ea; [reflexivity|].
    rewrite inter_size_self.
    assert (Hpos : (0 < union_size (x :: xs) (x :: xs))%nat)
      by (apply union_size_pos; discriminate).
    unfold Qdiv. apply Qmult_inv_r.
    intro H. unfold Qeq in H. cbn [Qnum Qden inject_Z] in H. lia.
  - intros E b. unfold jaccard. rewrite E. split; [reflexivity|].
    now destruct (tokens b).
Qed.

(** X8.  Every token is made of lower-case letters and digits and has at
    least three characters. *)
Theorem tokens_shape (s : string) :
  Forall (fun t => sforall is_az09 t = true /\ (3 <= String.length t)%nat) (tokens s).
Proof.
  unfold tokens.
  pose proof (split_tokens _ (blank_other_classes (lower s))) as H.
  induction H as [|t r [_ Ht] Hr IH]; cbn [filter]; [constructor|].
  destruct (2 <? String.length t)%nat eqn:E; [|exact IH].
  constructor; [|exact IH]. split; [exact Ht|]. apply Nat.ltb_lt in E. lia.
Qed.

(** *** The numbers and dates read from text *)

Lemma digit_val_range (c : ascii) : is_digit c = true -> 0 <= digit_val c <= 9.
Proof.
  unfold is_digit, between, digit_val. intro H.
  apply andb_true_iff in H. destruct H as [H1 H2].
  apply Nat.leb_le in H1, H2.
  generalize dependent (code c). intros k H1 H2. lia.
Qed.

Lemma int_of_digits_acc_range (s : string) :
  sforall is_digit s = true ->
  forall acc, 0 <= acc ->
    10 ^ Z.of_nat (String.length s) * acc <= int_of_digits_acc acc s
    /\ int_of_digits_acc acc s < 10 ^ Z.of_nat (String.length s) * (acc + 1).
Proof.
  induction s as [|c r IH]; cbn [sforall int_of_digits_acc String.length].
  - intros _ acc Hacc. change (Z.of_nat 0) with 0. rewrite Z.pow_0_r. lia.
  - intros H acc Hacc. apply andb_true_iff in H. destruct H as [Hc Hr].
    pose proof (digit_val_range c Hc) as Hd.
    destruct (IH Hr (10 * acc + digit_val c)) as [L U]; [lia|].
    rewrite Nat2Z.inj_succ, Z.pow_succ_r by lia.
    assert (Hp : 0 < 10 ^ Z.of_nat (String.length r)) by (apply Z.pow_pos_nonneg; lia).
    split; nia.
Qed.

Lemma int_of_digits_range (s : string) :
  sforall is_digit s = true ->
  0 <= int_of_digits s < 10 ^ Z.of_nat (String.length s).
Proof.
  intro H. destruct (int_of_digits_acc_range s H 0) as [L U]; [lia|].
  unfold int_of_digits. lia.
Qed.

(** a match found by [search] is a match at some position. *)
Lemma search_found {A : Type} (m : option ascii -> string -> option A) (s : string) :
  forall prev v, search m prev s = Some v -> exists p t, m p t = Some v.
Proof.
  induction s as [|c r IH]; intros prev v; cbn [search].
  - destruct (m prev EmptyString) eqn:E; [|discriminate].
    intro H. injection H as <-. eauto.
  - destruct (m prev (String c r)) eqn:E.
    + intro H. injection H as <-. eauto.
    + apply IH.
Qed.

Lemma part_digits_range (s : string) (n : Z) :
  part_digits s = Some n -> 0 <= n <= 99.
Proof.
  unfold part_digits.
  destruct s as [|d1 [|d2 r]]; [discriminate | |].
  - destruct (is_digit d1) eqn:E1; [|discriminate].
    intro H. injection H as <-.
    pose proof (int_of_digits_range (String d1 EmptyString)) as R.
    cbn [sforall String.length] in R. rewrite E1 in R. specialize (R eq_refl).
    change (10 ^ Z.of_nat 1) with 10 in R. lia.
  - destruct (is_digit d1 && is_digit d2 && negb (is_word_opt (head_char r))) eqn:E.
    + apply andb_true_iff in E. destruct E as [E _].
      apply andb_true_iff in E. destruct E as [E1 E2].
      intro H. injection H as <-.
      pose proof (int_of_digits_range (String d1 (String d2 EmptyString))) as R.
      cbn [sforall String.length] in R. rewrite E1, E2 in R. specialize (R eq_refl).
      change (10 ^ Z.of_nat 2) with 100 in R. lia.
    + destruct (is_digit d1 && negb (is_word d2)) eqn:E'; [|discriminate].
      apply andb_true_iff in E'. destruct E' as [E1 _].
      intro H. injection H as <-.
      pose proof (int_of_digits_range (String d1 EmptyString)) as R.
      cbn [sforall String.length] in R. rewrite E1 in R. specialize (R eq_refl).
      change (10 ^ Z.of_nat 1) with 10 in R. lia.
Qed.

Lemma part_roman_In (alts : list (string * Z)) (s g : string) :
  part_roman alts s = Some g -> exists n, In (g, n) alts.
Proof.
  induction alts as [|[a n] r IH]; cbn [part_roman]; [discriminate|].
  destruct (starts_with a s && _).
  - intro H. injection H as <-. exists n. now left.
  - intro H. destruct (IH H) as [n' Hn]. exists n'. now right.
Qed.

(** X9.  A part number, when one is found, is between 0 and 99. *)
Theorem extract_part_number_range (text : string) (n : Z) :
  extract_part_number text = Some n -> 0 <= n <= 99.
Proof.
  unfold extract_part_number.
  destruct (search _ None (lower text)) as [k|] eqn:E1.
  - intro H. injection H as <-.
    destruct (search_found _ _ _ _ E1) as (p & t & Hm).
    unfold bind_opt in Hm. destruct (part_prefix p t); [|discriminate].
    eapply part_digits_range; eassumption.
  - clear E1.
    destruct (search _ None (lower text)) as [g|] eqn:E2; [|discriminate].
    intro H. apply dict_get_In in H.
    assert (HR : Forall (fun kv => 1 <= snd kv <= 10) ROMAN_MAP).
    { unfold ROMAN_MAP. repeat constructor; cbn; lia. }
    rewrite Forall_forall in HR. specialize (HR _ H). cbn in HR. lia.
Qed.

Lemma take_length_le (k : nat) (s : string) : (String.length (take k s) <= k)%nat.
Proof.
  revert s. induction k as [|k IH]; intros [|c r]; cbn; try lia.
  specialize (IH r). lia.
Qed.

(** X10.  The numeral read from an original file name, when there is one, is
    between 0 and 999. *)
Theorem number_from_orig_filename_range (s : string) (n : Z) :
  number_from_orig_filename s = Some n -> 0 <= n <= 999.
Proof.
  unfold number_from_orig_filename. intro H.
  destruct (search_found _ _ _ _ H) as (_ & t & Hm). clear H.
  unfold number_here in Hm.
  assert (Htry : forall k, (k <= 3)%nat ->
            (if (String.length (take k t) =? k)%nat && sforall is_digit (take k t)
             then match dot_ext at_end (drop k t) with
                  | Some _ => Some (int_of_digits (take k t))
                  | None => None
                  end
             else None) = Some n -> 0 <= n <= 999).
  { intros k Hk Ht.
    destruct ((String.length (take k t) =? k)%nat && sforall is_digit (take k t)) eqn:E;
      [|discriminate].
    apply andb_true_iff in E. destruct E as [El Ed]. apply Nat.eqb_eq in El.
    destruct (dot_ext at_end (drop k t)); [|discriminate].
    injection Ht as <-.
    pose proof (int_of_digits_range _ Ed) as R. rewrite El in R.
    assert (10 ^ Z.of_nat k <= 10 ^ 3) by (apply Z.pow_le_mono_r; lia).
    lia. }
  repeat match type of Hm with
         | match ?x with Some _ => _ | None => _ end = Some _ =>
             let E := fresh "E" in
             destruct x eqn:E;
             [injection Hm as ->; eapply Htry; [|exact E]; lia|]
         end.
  eapply Htry; [|exact Hm]. lia.
Qed.

(** a match found by [search] is a match on a suffix of the text. *)
Lemma search_suffix {A : Type} (m : option ascii -> string -> option A) (s : string) :
  forall prev v, search m prev s = Some v ->
                 exists p k, m p (drop k s) = Some v.
Proof.
  induction s as [|c r IH]; intros prev v; cbn [search].
  - destruct (m prev EmptyString) eqn:E; [|discriminate].
    intro H. injection H as <-. now exists prev, 0%nat.
  - destruct (m prev (String c r)) eqn:E.
    + intro H. injection H as <-. now exists prev, 0%nat.
    + intro H. destruct (IH _ _ H) as (p & k & Hk). now exists p, (S k).
Qed.

Lemma contains_drop (p s : string) (k : nat) :
  starts_with p (drop k s) = true -> contains p s = true.
Proof.
  revert s. induction k as [|k IH]; intros s H.
  - cbn [drop] in H. destruct s; cbn [contains]; now rewrite H.
  - destruct s as [|c r]; cbn [drop] in H.
    + cbn [contains]. now rewrite H.
    + cbn [contains]. rewrite (IH r H). apply orb_true_r.
Qed.

Ltac open_classes E :=
  cbn [match_classes] in E;
  repeat match type of E with
         | match ?s with EmptyString => _ | String _ _ => _ end = Some _ =>
             destruct s; [discriminate|]
         | (if ?b then _ else _) = Some _ =>
             let Hb := fresh "Hb" in destruct b eqn:Hb; [|discriminate]
         end.

Ltac use_digits :=
  repeat match goal with
         | H : is_digit ?c = true |- context [is_digit ?c] => rewrite H
         end.

Ltac chars_known :=
  repeat match goal with
         | H : is_char _ _ = true |- _ => apply Ascii.eqb_eq in H; subst
         end.

(** X11.  The year and month read from a post URL are both present or both
    absent; when present they are four and two decimal digits, the URL
    contains the segment [/year/month/], and the year has a decade tag, its
    first three digits followed by [0s]. *)
Theorem extract_year_month_from_post_url_shape (u : string) :
  extract_year_month_from_post_url u = (None, None)
  \/ exists y m,
       extract_year_month_from_post_url u = (Some y, Some m)
       /\ sforall is_digit y = true /\ String.length y = 4%nat
       /\ sforall is_digit m = true /\ String.length m = 2%nat
       /\ contains ("/" ++ y ++ "/" ++ m ++ "/") u = true
       /\ decade_tag (Some y) = Some (take 3 y ++ "0s").
Proof.
  unfold extract_year_month_from_post_url.
  destruct (search _ None u) as [[y m]|] eqn:E; [right | now left].
  exists y, m. split; [reflexivity|].
  destruct (search_suffix _ _ _ _ E) as (_ & k & Hk). clear E.
  assert (Hstart : forall p, starts_with p (drop k u) = true -> contains p u = true)
    by (intro p; apply contains_drop).
  remember (drop k u) as t eqn:Et. clear Et.
  destruct (match_classes URL_DATE_CLASSES t) as [r|] eqn:Ec; [|discriminate].
  injection Hk as <- <-.
  unfold URL_DATE_CLASSES in Ec. open_classes Ec. chars_known.
  cbn [drop take sforall String.length]. use_digits. repeat split.
  - apply Hstart. cbn. now rewrite !Ascii.eqb_refl.
  - cbn. now use_digits.
Qed.

(** X12.  The year and month read from an index date are both present or
    both absent; when present the date starts with [year-month-], they are
    four and two decimal digits, and the year has a decade tag. *)
Theorem year_month_from_index_date_shape (d : string) :
  year_month_from_index_date d = (None, None)
  \/ exists y m,
       year_month_from_index_date d = (Some y, Some m)
       /\ sforall is_digit y = true /\ String.length y = 4%nat
       /\ sforall is_digit m = true /\ String.length m = 2%nat
       /\ starts_with (y ++ "-" ++ m ++ "-") d = true
       /\ decade_tag (Some y) = Some (take 3 y ++ "0s").
Proof.
  unfold year_month_from_index_date.
  destruct (negb (truthy d)); [now left|].
  destruct (match_classes DATE_CLASSES d) as [r|] eqn:Ec; [right | now left].
  eexists _, _. split; [reflexivity|].
  unfold DATE_CLASSES in Ec. open_classes Ec. chars_known.
  cbn [drop take sforall String.length]. use_digits. repeat split.
  - cbn. now rewrite !Ascii.eqb_refl.
  - cbn. now use_digits.
Qed.

(** ** More on the scores *)



(** X14.  An image score, when [image_score] returns, lies between 0 and
    1.34; without a usable position (no position on the image, or no guessed
    position) it is at most 0.76. *)
Theorem image_score_bounds (item : LocalRecord) (im : Image) (g : option Z) (q : Q) :
  image_score item im g = Some q ->
  (0 <= q)%Q /\ (q <= 1.34)%Q
  /\ (im_pos im = 0 \/ truthy_optZ g = false -> (q <= 0.76)%Q).
Proof.
  intro H. split; [eapply image_score_nonneg; eassumption|].
  revert H. unfold image_score.
  destruct (urlparse (im_url im)) as [[h p]|]; [|discriminate].
  intro H. injection H as <-. cbv zeta.
  assert (Ho : (prefer_original (im_url im) <= 0.4)%Q).
  { unfold prefer_original.
    destruct (contains "/s0/" (im_url im)), (contains "imgmax=0" (im_url im)); lra. }
  match goal with
  | |- context [ (if ?c then (0 + 0.58)%Q else ?e) ] =>
      set (pos_part := if c then (0 + 0.58)%Q else e)
  end.
  assert (Hpos : (pos_part <= 0.58)%Q
                 /\ (im_pos im = 0 \/ truthy_optZ g = false -> (pos_part == 0)%Q)).
  { unfold pos_part. split.
    - match goal with |- context [ if ?c then _ else _ ] => destruct c end; [lra|].
      match goal with |- context [ if ?c then _ else _ ] => destruct c end; [|lra].
      match goal with
      | |- context [ max 0 (0.46 - ?x) ] =>
          assert (0 <= x)%Q
            by (apply Qmult_le_0_compat; [lra | unfold abs_diff;
                change 0%Q with (inject_Z 0); rewrite <- Zle_Qle; lia]);
          unfold max; destruct (qlt 0 (0.46 - x)); lra
      end.
    - intros [Hz | Hg].
      + rewrite Hz. reflexivity.
      + rewrite Hg, !andb_false_r. reflexivity. }
  destruct Hpos as [Hpos Hzero]. clearbody pos_part.
  assert (Hfile :
    (match filename_tokens_from_path (l_file item) with
     | [] => pos_part
     | _ :: _ =>
         match filename_tokens_from_path p with
         | [] => pos_part
         | _ :: _ =>
             match inter_size (filename_tokens_from_path (l_file item))
                     (filename_tokens_from_path p) with
             | O => pos_part
             | S _ => pos_part
                      + min 0.36
                          (0.18 + 0.10 * inject_Z
                                         (Z.of_nat
                                            (inter_size
                                               (filename_tokens_from_path (l_file item))
                                               (filename_tokens_from_path p))))
             end
         end
     end <= pos_part + 0.36)%Q).
  { destruct (filename_tokens_from_path (l_file item)) as [|t ts]; [lra|].
    destruct (filename_tokens_from_path p) as [|t' ts']; [lra|].
    destruct (inter_size (t :: ts) (t' :: ts')) as [|n]; [lra|].
    pose proof (min_le_l 0.36 (0.18 + 0.10 * inject_Z (Z.of_nat (S n)))). lra. }
  split; [lra|]. intro Hc. specialize (Hzero Hc). lra.
Qed.

Lemma choose_post_spec (item : LocalRecord) (posts : list CandidatePost) :
  forall best bs,
    let r := choose_post item posts best bs in
    (forall c, In c posts -> (fst (post_score item c) <= snd r)%Q)
    /\ ((fst r = best /\ snd r = bs
         /\ forall c, In c posts -> (fst (post_score item c) <= bs)%Q)
        \/ exists l1 p l2,
             posts = (l1 ++ p :: l2)%list
             /\ fst r = Some p /\ snd r = fst (post_score item p)
             /\ (bs < fst (post_score item p))%Q
             /\ forall c, In c l1 -> (fst (post_score item c) < fst (post_score item p))%Q).
Proof.
  induction posts as [|c rest IH]; intros best bs; cbn [choose_post].
  - cbv zeta. cbn [fst snd]. split; [intros c []|]. left. repeat split. intros c [].
  - cbv zeta. destruct (qlt bs (fst (post_score item c))) eqn:E.
    + apply qlt_true in E.
      destruct (IH (Some c) (fst (post_score item c))) as [Hall Hcase].
      cbv zeta in Hall, Hcase.
      set (r := choose_post item rest (Some c) (fst (post_score item c))) in *.
      destruct Hcase as [(H1 & H2 & H3) | (l1 & p & l2 & Hl & H1 & H2 & H3 & H4)].
      * split.
        -- intros c' [<- | Hin]; [rewrite H2; lra | now apply Hall].
        -- right. exists [], c, rest. cbn [app]. repeat split; try assumption.
           intros c' [].
      * split.
        -- intros c' [<- | Hin]; [rewrite H2; lra | now apply Hall].
        -- right. exists (c :: l1), p, l2. rewrite Hl. cbn [app].
           repeat split; try assumption; [lra|].
           intros c' [<- | Hin]; [exact H3 | now apply H4].
    + apply qlt_false in E.
      destruct (IH best bs) as [Hall Hcase]. cbv zeta in Hall, Hcase.
      set (r := choose_post item rest best bs) in *.
      destruct Hcase as [(H1 & H2 & H3) | (l1 & p & l2 & Hl & H1 & H2 & H3 & H4)].
      * split.
        -- intros c' [<- | Hin]; [rewrite H2; exact E | now apply Hall].
        -- left. repeat split; try assumption.
           intros c' [<- | Hin]; [exact E | now apply H3].
      * split.
        -- intros c' [<- | Hin]; [rewrite H2; lra | now apply Hall].
        -- right. exists (c :: l1), p, l2. rewrite Hl. cbn [app].
           repeat split; try assumption.
           intros c' [<- | Hin]; [lra | now apply H4].
Qed.

(** X15.  The post matcher returns a post of greatest score, the first such
    post in the order of the candidate list: no candidate scores higher than
    the best score, and every candidate before the chosen one scores
    strictly lower.  It returns no post only when no candidate scores above
    the initial -1.0. *)
Theorem choose_post_first_maximum (item : LocalRecord) (posts : list CandidatePost) :
  let r := choose_post item posts None (-1.0)%Q in
  (forall c, In c posts -> (fst (post_score item c) <= snd r)%Q)
  /\ match fst r with
     | Some p =>
         exists l1 l2,
           posts = (l1 ++ p :: l2)%list
           /\ snd r = fst (post_score item p)
           /\ forall c, In c l1 -> (fst (post_score item c) < snd r)%Q
     | None =>
         snd r = (-1.0)%Q
         /\ forall c, In c posts -> (fst (post_score item c) <= -1.0)%Q
     end.
Proof.
  cbv zeta.
  destruct (choose_post_spec item posts None (-1.0)%Q) as [Hall Hcase].
  cbv zeta in Hall, Hcase. split; [exact Hall|].
  destruct Hcase as [(H1 & H2 & H3) | (l1 & p & l2 & Hl & H1 & H2 & _ & H4)].
  - rewrite H1. split; assumption.
  - rewrite H1. exists l1, l2. repeat split; try assumption.
    intros c Hc. rewrite H2. now apply H4.
Qed.

Lemma choose_image_spec (item : LocalRecord) (g : option Z) (ims : list Image) :
  forall best bs b s,
    choose_image item g ims best bs = Some (b, s) ->
    (forall im, In im ims ->
                exists q, image_score item im g = Some q /\ (q <= s)%Q)
    /\ ((b = best /\ s = bs
         /\ forall im, In im ims ->
                       exists q, image_score item im g = Some q /\ (q <= bs)%Q)
        \/ exists l1 bi l2,
             ims = (l1 ++ bi :: l2)%list
             /\ b = Some bi /\ image_score item bi g = Some s /\ (bs < s)%Q
             /\ forall im, In im l1 ->
                           exists q, image_score item im g = Some q /\ (q < s)%Q).
Proof.
  induction ims as [|im rest IH]; intros best bs b s; cbn [choose_image].
  - intro H. injection H as <- <-. split; [intros im []|].
    left. repeat split. intros im [].
  - destruct (image_score item im g) as [sc|] eqn:Esc; [|discriminate].
    destruct (qlt bs sc) eqn:E; intro H; apply IH in H;
      destruct H as [Hall [(H1 & H2 & H3) | (l1 & bi & l2 & Hl & H1 & H2 & H3 & H4)]].
    + apply qlt_true in E. subst b s. split.
      * intros im' [<- | Hin]; [exists sc; split; [exact Esc | lra] | now apply Hall].
      * right. exists [], im, rest. cbn [app]. repeat split; try assumption.
        intros im' [].
    + apply qlt_true in E. split.
      * intros im' [<- | Hin]; [exists sc; split; [exact Esc | lra] | now apply Hall].
      * right. exists (im :: l1), bi, l2. rewrite Hl. cbn [app].
        repeat split; try assumption; [lra|].
        intros im' [<- | Hin]; [exists sc; split; [exact Esc | exact H3] | now apply H4].
    + apply qlt_false in E. subst b s. split.
      * intros im' [<- | Hin]; [exists sc; split; [exact Esc | exact E] | now apply Hall].
      * left. repeat split.
        intros im' [<- | Hin]; [exists sc; split; [exact Esc | exact E] | now apply H3].
    + apply qlt_false in E. split.
      * intros im' [<- | Hin]; [exists sc; split; [exact Esc | lra] | now apply Hall].
      * right. exists (im :: l1), bi, l2. rewrite Hl. cbn [app].
        repeat split; try assumption.
        intros im' [<- | Hin]; [exists sc; split; [exact Esc | lra] | now apply H4].
Qed.

(** X16.  The image matcher, when it returns, returns an image of greatest
    score, the first such image in the order of the post's image list; it
    returns no image only for an empty list. *)
Theorem choose_image_first_maximum (item : LocalRecord) (g : option Z)
  (ims : list Image) (b : option Image) (s : Q) :
  choose_image item g ims None (-1.0)%Q = Some (b, s) ->
  (forall im, In im ims ->
              exists q, image_score item im g = Some q /\ (q <= s)%Q)
  /\ match b with
     | Some bi =>
         exists l1 l2,
           ims = (l1 ++ bi :: l2)%list
           /\ image_score item bi g = Some s
           /\ forall im, In im l1 ->
                         exists q, image_score item im g = Some q /\ (q < s)%Q
     | None => ims = [] /\ s = (-1.0)%Q
     end.
Proof.
  intro H. destruct (choose_image_spec _ _ _ _ _ _ _ H) as [Hall Hcase].
  split; [exact Hall|].
  destruct Hcase as [(H1 & H2 & H3) | (l1 & bi & l2 & Hl & H1 & H2 & _ & H4)].
  - subst b s. split; [|reflexivity].
    destruct ims as [|im rest]; [reflexivity|]. exfalso.
    destruct (H3 im (or_introl eq_refl)) as (q & Hq & Hle).
    pose proof (image_score_nonneg _ _ _ _ Hq). lra.
  - subst b. now exists l1, l2.
Qed.

(** ** The override table *)

Lemma key_eqb_eq (a b : string * string) : key_eqb a b = true <-> a = b.
Proof.
  unfold key_eqb. destruct a as [a1 a2], b as [b1 b2]. cbn [fst snd].
  rewrite andb_true_iff, !String.eqb_eq. split; [intros [-> ->] | intro H; injection H]; auto.
Qed.

Lemma overrides_get_set (d : list ((string * string) * Override))
  (k k' : string * string) (v : Override) :
  overrides_get (overrides_set d k v) k'
  = if key_eqb k k' then Some v else overrides_get d k'.
Proof.
  induction d as [|[k0 v0] r IH]; cbn [overrides_set overrides_get].
  - reflexivity.
  - destruct (key_eqb k0 k) eqn:E0; cbn [overrides_get].
    + apply key_eqb_eq in E0. subst k0. now destruct (key_eqb k k').
    + rewrite IH. destruct (key_eqb k0 k') eqn:E1; [|reflexivity].
      apply key_eqb_eq in E1. subst k0.
      destruct (key_eqb k k') eqn:E2; [|reflexivity].
      apply key_eqb_eq in E2. subst k. 
      assert (key_eqb k' k' = true) by now apply key_eqb_eq. congruence.
Qed.

Lemma find_app_last {A : Type} (f : A -> bool) (l : list A) (x : A) :
  find f (l ++ [x]) = match find f l with
                      | Some y => Some y
                      | None => if f x then Some x else None
                      end.
Proof.
  induction l as [|y r IH]; cbn [app find]; [reflexivity|].
  now destruct (f y).
Qed.

Lemma load_overrides_from (rows : list OverrideRow) :
  forall d key,
    overrides_get
      (fold_left
         (fun d row =>
            overrides_set d (normalize (o_folder row), normalize (o_title row))
              {| ov_post_url := normalize (o_post_url row);
                 ov_image_pos := o_image_pos row |})
         rows d) key
    = match find (fun row => key_eqb (row_key row) key) (rev rows) with
      | Some row => Some (override_of_row row)
      | None => overrides_get d key
      end.
Proof.
  induction rows as [|row rest IH]; intros d key; cbn [fold_left rev].
  - reflexivity.
  - rewrite IH, find_app_last.
    destruct (find _ (rev rest)); [reflexivity|].
    rewrite overrides_get_set. unfold row_key.
    now destruct (key_eqb _ key).
Qed.

(** X17.  Looking a key up in the loaded override table gives the entry of
    the last row of the file whose whitespace-normalised (folder, title) is
    that key, and nothing when there is no such row: a later row replaces an
    earlier one. *)
Theorem load_overrides_last_row_wins (rows : list OverrideRow) (key : string * string) :
  overrides_get (load_overrides rows) key
  = option_map override_of_row
      (find (fun row => key_eqb (row_key row) key) (rev rows)).
Proof.
  unfold load_overrides. rewrite load_overrides_from.
  now destruct (find _ (rev rows)).
Qed.

(** ** More on the aggregator *)

Lemma post_map_get_update (pm : list (string * PostEntry)) (pu k : string)
  (f : PostEntry -> PostEntry) :
  post_map_get (post_map_update pm pu f) k
  = if String.eqb pu k then Some (f (entry_of pm pu)) else post_map_get pm k.
Proof.
  unfold entry_of.
  induction pm as [|[k0 v0] r IH]; cbn [post_map_update post_map_get].
  - reflexivity.
  - destruct (String.eqb k0 pu) eqn:E0; cbn [post_map_get].
    + apply String.eqb_eq in E0. subst k0. now destruct (String.eqb pu k).
    + rewrite IH. destruct (String.eqb k0 k) eqn:E1; [|reflexivity].
      apply String.eqb_eq in E1. subst k0.
      destruct (String.eqb pu k) eqn:E2; [|reflexivity].
      apply String.eqb_eq in E2. subst pu. rewrite String.eqb_refl in E0. discriminate.
Qed.

Lemma entry_of_group_row (pm : list (string * PostEntry)) (row : RemoteImageRecord)
  (k : string) :
  entry_of (group_row pm row) k
  = if survives row && String.eqb (normalize (r_post_url row)) k
    then absorb row (entry_of pm k) else entry_of pm k.
Proof.
  unfold group_row, survives.
  destruct (truthy (r_image_url row)); cbn [negb orb andb]; [|reflexivity].
  destruct (host_ok (r_image_url row)); cbn [negb andb]; [|reflexivity].
  unfold entry_of at 1. rewrite post_map_get_update.
  destruct (String.eqb (normalize (r_post_url row)) k) eqn:E; [|reflexivity].
  apply String.eqb_eq in E. now subst k.
Qed.

Lemma group_of_cons (row : RemoteImageRecord) (rest : list RemoteImageRecord)
  (k : string) :
  group_of (row :: rest) k
  = if survives row && String.eqb (normalize (r_post_url row)) k
    then row :: group_of rest k else group_of rest k.
Proof. reflexivity. Qed.

Lemma fold_group_images (meta : list RemoteImageRecord) (k : string) :
  forall pm,
    pe_images (entry_of (fold_left group_row meta pm) k)
    = (pe_images (entry_of pm k) ++ map image_of_row (group_of meta k))%list.
Proof.
  induction meta as [|row rest IH]; intro pm; cbn [fold_left].
  - cbn. now rewrite app_nil_r.
  - rewrite IH, entry_of_group_row, group_of_cons.
    destruct (survives row && _); [|reflexivity].
    cbn [absorb pe_images map]. now rewrite <- app_assoc.
Qed.

Lemma first_truthy_cons (x : string) (l : list string) :
  first_truthy (x :: l) = if truthy x then x else first_truthy l.
Proof.
  unfold first_truthy. cbn [filter]. now destruct (truthy x).
Qed.

(** first non-empty value wins, for a text field read through [normalize]. *)
Lemma fold_group_first_wins (get : PostEntry -> string)
  (rf : RemoteImageRecord -> string) :
  (forall row e, get (absorb row e)
                 = if truthy (get e) then get e else normalize (rf row)) ->
  forall meta k pm,
    get (entry_of (fold_left group_row meta pm) k)
    = if truthy (get (entry_of pm k)) then get (entry_of pm k)
      else first_truthy (map (fun r => normalize (rf r)) (group_of meta k)).
Proof.
  intros Habs meta k. induction meta as [|row rest IH]; intro pm; cbn [fold_left].
  - cbn. now destruct (truthy _) eqn:E; [|destruct (get (entry_of pm k)); [|discriminate]].
  - rewrite IH, entry_of_group_row, group_of_cons.
    destruct (survives row && _); [|reflexivity].
    rewrite Habs. cbn [map]. rewrite first_truthy_cons.
    destruct (truthy (get (entry_of pm k))) eqn:E.
    + now rewrite E.
    + reflexivity.
Qed.

Lemma fold_group_labels (meta : list RemoteImageRecord) (k : string) :
  forall pm,
    pe_labels (entry_of (fold_left group_row meta pm) k)
    = match pe_labels (entry_of pm k) with
      | [] => first_nonempty (map r_labels (group_of meta k))
      | l => l
      end.
Proof.
  induction meta as [|row rest IH]; intro pm; cbn [fold_left].
  - cbn. now destruct (pe_labels (entry_of pm k)).
  - rewrite IH, entry_of_group_row, group_of_cons.
    destruct (survives row && _); [|reflexivity].
    cbn [absorb pe_labels map]. unfold first_nonempty. cbn [filter].
    destruct (pe_labels (entry_of pm k)) as [|x xs]; [|reflexivity].
    now destruct (r_labels row).
Qed.

Lemma post_map_get_In (pm : list (string * PostEntry)) (k : string) (e : PostEntry) :
  NoDup (map fst pm) -> In (k, e) pm -> post_map_get pm k = Some e.
Proof.
  induction pm as [|[k0 v0] r IH]; cbn [map fst post_map_get]; intros Hnd Hin;
    [destruct Hin|].
  inversion Hnd as [|? ? Hnotin Hr]; subst.
  destruct Hin as [Hin | Hin].
  - injection Hin as -> ->. now rewrite String.eqb_refl.
  - destruct (String.eqb k0 k) eqn:E; [|now apply IH].
    apply String.eqb_eq in E. subst k0. exfalso. apply Hnotin.
    change k with (fst (k, e)). now apply in_map.
Qed.

(** a candidate post is made of the entry that the grouping loop holds for
    its URL. *)
Lemma build_posts_entry (meta : list RemoteImageRecord) (p : CandidatePost) :
  In p (build_posts meta) ->
  let e := entry_of (fold_left group_row meta []) (post_url p) in
  post_title p = pe_post_title e
  /\ post_date p = pe_post_date e
  /\ labels p = map apply_synonyms_tokenwise (pe_labels e)
  /\ source p = pe_source e
  /\ description p = pe_description e
  /\ images p = sort_images (pe_images e).
Proof.
  intro Hp. cbv zeta. unfold build_posts, post_map_of in Hp.
  apply in_map_iff in Hp. destruct Hp as (kv & <- & Hkv).
  apply in_map_iff in Hkv. destruct Hkv as ([k e] & <- & Hin).
  rewrite post_url_make_post. cbn [fst snd].
  unfold entry_of.
  rewrite (post_map_get_In _ k e (fold_group_nodup meta [] (NoDup_nil _)) Hin).
  unfold make_post. cbn [fst snd].
  destruct (extract_year_month_from_post_url k). cbn. repeat split.
Qed.

(** X18.  The images of a candidate post are the images of the records of
    its URL that pass the filter, in input order and then sorted: no image
    of a surviving record is lost, none is added, and every post has at least
    one. *)
Theorem post_images_are_group (meta : list RemoteImageRecord) (p : CandidatePost) :
  In p (build_posts meta) ->
  images p = sort_images (map image_of_row (group_of meta (post_url p)))
  /\ group_of meta (post_url p) <> [].
Proof.
  intro Hp. destruct (build_posts_entry meta p Hp) as (_ & _ & _ & _ & _ & Hi).
  rewrite fold_group_images in Hi. cbn [entry_of post_map_get empty_entry pe_images app] in Hi.
  split; [exact Hi|].
  intro E. rewrite E in Hi. cbn in Hi.
  pose proof (build_posts_ok meta) as Hok. rewrite Forall_forall in Hok.
  destruct (Hok p Hp) as [Hne _]. contradiction.
Qed.

(** X19.  First non-empty value wins: the title, date, source and
    description of a candidate post are the first non-empty normalised
    values among the surviving records of its URL (empty if there is none),
    and its labels are the synonym-folded labels of the first such record
    with a non-empty label list. *)
Theorem post_fields_first_wins (meta : list RemoteImageRecord) (p : CandidatePost) :
  In p (build_posts meta) ->
  let grp := group_of meta (post_url p) in
  post_title p = first_truthy (map (fun r => normalize (r_post_title r)) grp)
  /\ post_date p = first_truthy (map (fun r => normalize (r_post_date r)) grp)
  /\ source p = first_truthy (map (fun r => normalize (r_source r)) grp)
  /\ description p = first_truthy (map (fun r => normalize (r_description r)) grp)
  /\ labels p = map apply_synonyms_tokenwise (first_nonempty (map r_labels grp)).
Proof.
  intro Hp. cbv zeta.
  destruct (build_posts_entry meta p Hp) as (Ht & Hd & Hl & Hs & Hde & _).
  rewrite Ht, Hd, Hl, Hs, Hde.
  rewrite (fold_group_first_wins pe_post_title r_post_title) by reflexivity.
  rewrite (fold_group_first_wins pe_post_date r_post_date) by reflexivity.
  rewrite (fold_group_first_wins pe_source r_source) by reflexivity.
  rewrite (fold_group_first_wins pe_description r_description) by reflexivity.
  rewrite fold_group_labels. repeat split.
Qed.

Lemma filter_filter {A : Type} (f g : A -> bool) (l : list A) :
  filter f (filter g l) = filter (fun x => g x && f x) l.
Proof.
  induction l as [|x r IH]; cbn [filter]; [reflexivity|].
  destruct (g x); cbn [filter andb]; [destruct (f x)|]; now rewrite IH.
Qed.

Lemma group_row_cases (pm : list (string * PostEntry)) (row : RemoteImageRecord) :
  group_row pm row
  = if survives row
    then post_map_update pm (normalize (r_post_url row)) (absorb row) else pm.
Proof.
  unfold group_row, survives.
  destruct (truthy (r_image_url row)); cbn [negb orb andb]; [|reflexivity].
  now destruct (host_ok (r_image_url row)).
Qed.

Lemma post_map_update_key_list (pm : list (string * PostEntry)) (k : string)
  (f : PostEntry -> PostEntry) :
  map fst (post_map_update pm k f)
  = if mem k (map fst pm) then map fst pm else (map fst pm ++ [k])%list.
Proof.
  induction pm as [|[k0 v0] r IH]; cbn [post_map_update map fst].
  - reflexivity.
  - unfold mem in *. cbn [existsb].
    destruct (String.eqb k0 k) eqn:E; cbn [map fst].
    + apply String.eqb_eq in E. subst k0. now rewrite String.eqb_refl.
    + rewrite IH, String.eqb_sym, E. cbn [orb].
      now destruct (existsb (String.eqb k) (map fst r)).
Qed.

Lemma fold_group_keys (meta : list RemoteImageRecord) :
  forall pm,
    map fst (fold_left group_row meta pm)
    = (map fst pm
       ++ filter (fun y => negb (mem y (map fst pm)))
            (first_occurrences
               (map (fun r => normalize (r_post_url r)) (filter survives meta))))%list.
Proof.
  induction meta as [|row rest IH]; intro pm; cbn [fold_left filter].
  - cbn. now rewrite app_nil_r.
  - rewrite IH, group_row_cases.
    destruct (survives row); [|reflexivity].
    set (k := normalize (r_post_url row)).
    cbn [map first_occurrences filter]. fold k.
    set (F := first_occurrences _).
    rewrite post_map_update_key_list, filter_filter.
    destruct (mem k (map fst pm)) eqn:Em; cbn [negb].
    + f_equal. apply filter_ext_in. intros y _.
      destruct (mem y (map fst pm)) eqn:Ey; cbn [negb andb];
        [now rewrite andb_false_r|].
      rewrite andb_true_r. symmetry. apply negb_true_iff. apply String.eqb_neq.
      intros ->. congruence.
    + rewrite <- app_assoc. cbn [app]. f_equal. f_equal.
      apply filter_ext_in. intros y _. unfold mem. rewrite existsb_app.
      cbn [existsb]. rewrite orb_false_r, negb_orb. apply andb_comm.
Qed.

(** X20.  The candidate posts are in the order in which their URLs first
    occur among the records that pass the filter, one post per URL. *)
Theorem posts_in_first_occurrence_order (meta : list RemoteImageRecord) :
  map post_url (build_posts meta)
  = first_occurrences
      (map (fun r => normalize (r_post_url r)) (filter survives meta)).
Proof.
  rewrite build_posts_urls, fold_group_keys. cbn [map app].
  set (F := first_occurrences _). clearbody F.
  induction F as [|x r IH]; [reflexivity|]. cbn [filter].
  change (negb (mem x [])) with true. cbv iota. now rewrite IH.
Qed.

(** *** The sort of the images *)

Lemma insert_image_perm (x : Image) (l : list Image) :
  Permutation (insert_image x l) (x :: l).
Proof.
  induction l as [|y r IH]; cbn [insert_image]; [reflexivity|].
  destruct (key_leb (sort_key x) (sort_key y)); [reflexivity|].
  rewrite IH. apply perm_swap.
Qed.

Lemma string_leb_refl (s : string) : String.leb s s = true.
Proof.
  unfold String.leb. now rewrite string_compare_refl.
Qed.

Lemma insert_image_filter (k : Z * string) (x : Image) (l : list Image) :
  filter (has_key k) (insert_image x l)
  = if has_key k x then x :: filter (has_key k) l else filter (has_key k) l.
Proof.
  induction l as [|y r IH]; cbn [insert_image filter]; [reflexivity|].
  destruct (key_leb (sort_key x) (sort_key y)) eqn:E; cbn [filter].
  - reflexivity.
  - rewrite IH. destruct (has_key k x) eqn:Ex; [|reflexivity].
    destruct (has_key k y) eqn:Ey; [|reflexivity].
    exfalso. unfold has_key in Ex, Ey.
    apply andb_true_iff in Ex, Ey. destruct Ex as [X1 X2], Ey as [Y1 Y2].
    apply Z.eqb_eq in X1, Y1. apply String.eqb_eq in X2, Y2.
    unfold key_leb in E. rewrite X1, Y1, X2, Y2 in E.
    rewrite Z.eqb_refl, string_leb_refl, orb_true_r in E. discriminate.
Qed.

(** X21.  Sorting the images of a post only reorders them, and it is
    stable: images with the same key (effective position and URL) stay in
    their input order. *)
Theorem sort_images_stable_permutation (l : list Image) :
  Permutation (sort_images l) l
  /\ forall k, filter (has_key k) (sort_images l) = filter (has_key k) l.
Proof.
  split.
  - induction l as [|x r IH]; cbn [sort_images fold_right]; [reflexivity|].
    fold (sort_images r). rewrite insert_image_perm. now constructor.
  - intro k. induction l as [|x r IH]; cbn [sort_images fold_right filter];
      [reflexivity|].
    fold (sort_images r). rewrite insert_image_filter, IH. reflexivity.
Qed.

(** *** [only_ascii] *)

Lemma sub_runs_classes (cls : ascii -> bool) (s : string) :
  forall b,
    sforall (fun c => negb (cls c) || Ascii.eqb c " ") (sub_runs cls b s) = true.
Proof.
  induction s as [|c r IH]; intro b; cbn [sub_runs]; [reflexivity|].
  destruct (cls c) eqn:E.
  - destruct b; [apply IH|]. cbn [sforall]. rewrite IH. now rewrite orb_true_r.
  - cbn [sforall]. now rewrite E, IH.
Qed.

(** X22.  [only_ascii] yields printable ASCII only (code points 32 to 126),
    leaves a printable text unchanged, and is idempotent. *)
Theorem only_ascii_printable (s : string) :
  sforall printable (only_ascii s) = true
  /\ (sforall printable s = true -> only_ascii s = s)
  /\ only_ascii (only_ascii s) = only_ascii s.
Proof.
  assert (H1 : sforall printable (only_ascii s) = true).
  { unfold only_ascii. eapply sforall_impl; [|apply sub_runs_classes].
    intros c Hc. cbv beta in Hc. rewrite negb_involutive in Hc.
    apply orb_true_iff in Hc. destruct Hc as [Hc | Hc]; [exact Hc|].
    apply Ascii.eqb_eq in Hc. now subst c. }
  assert (H2 : forall t, sforall printable t = true -> only_ascii t = t).
  { intros t Ht. unfold only_ascii. apply sub_runs_none.
    eapply sforall_impl; [|exact Ht]. intros c Hc. now rewrite negb_involutive. }
  split; [exact H1|]. split; [apply H2 | apply H2, H1].
Qed.

(** ** More on the merge loop *)








(** X26.  A record matched by scoring passed both gates: its post is the
    best candidate (one of the candidate posts) with a score not below the
    post threshold, its image is the best image of that post with a score
    not below the image threshold, and its confidence is
    [min(1.0, 0.65 * post score + 0.35 * image score)] rounded to four
    decimals. *)
Theorem matched_passed_both_gates (post_threshold img_threshold : Q)
  (posts : list CandidatePost) (item : LocalRecord) (o : Outcome) :
  merge_scored post_threshold img_threshold posts item = Some o ->
  outcome_class o = "matched" ->
  exists bp bi bs s,
    choose_post item posts None (-1.0)%Q = (Some bp, bs)
    /\ In bp posts /\ (post_threshold <= bs)%Q
    /\ choose_image item (number_from_orig_filename (l_orig_filename item))
         (images bp) None (-1.0)%Q = Some (Some bi, s)
    /\ In bi (images bp)
    /\ image_score item bi (number_from_orig_filename (l_orig_filename item)) = Some s
    /\ (img_threshold <= s)%Q
    /\ out o = with_post item bp (Some (im_url bi))
                 (round (min 1.0 (bs * 0.65 + s * 0.35)) 4).
Proof.
  unfold merge_scored.
  destruct (choose_post item posts None (-1.0)%Q) as [[bp|] bs] eqn:Hc.
  - destruct (qlt bs post_threshold) eqn:Ep.
    + intro H. injection H as <-. discriminate.
    + apply qlt_false in Ep. unfold merge_images.
      destruct (choose_image _ _ _ _ _) as [[[bi|] s]|] eqn:Hi; [| |discriminate].
      * destruct (qlt s img_threshold) eqn:Ei; intro H; injection H as <-;
          [discriminate|].
        intros _. apply qlt_false in Ei.
        destruct (choose_post_In _ _ _ _ _ _ Hc) as [H | Hin]; [discriminate|].
        destruct (choose_image_spec _ _ _ _ _ _ _ Hi)
          as [_ [(H1 & _) | (l1 & bi' & l2 & Hl & H1 & H2 & _)]]; [discriminate|].
        injection H1 as <-.
        exists bp, bi, bs, s. repeat split; try assumption.
        rewrite Hl. apply in_or_app. right. now left.
      * intro H. injection H as <-. discriminate.
  - intro H. injection H as <-. discriminate.
Qed.

(** *** File name extensions *)

Lemma starts_with_split (p s : string) :
  starts_with p s = true -> s = p ++ drop (String.length p) s.
Proof.
  revert s. induction p as [|a p IH]; intros s H; [reflexivity|].
  destruct s as [|b s']; [discriminate|]. cbn [starts_with] in H.
  apply andb_true_iff in H. destruct H as [Hab Hp].
  apply Ascii.eqb_eq in Hab. subst b.
  cbn [String.length drop String.append]. now rewrite <- (IH s' Hp).
Qed.

Lemma at_end_cases (t : string) :
  at_end t = true -> t = EmptyString \/ t = String NEWLINE EmptyString.
Proof.
  destruct t as [|c [|d r]]; cbn [at_end]; intro H; try discriminate.
  - now left.
  - right. apply Ascii.eqb_eq in H. now subst c.
Qed.

(** an extension followed by the end of the text leaves no room for a dot. *)
Lemma ext_then_no_dot (exts : list string) (x r : string) :
  Forall (fun e => no_dot e = true) exts ->
  ext_then exts at_end x = Some r -> no_dot x = true.
Proof.
  induction 1 as [|e rest He Hrest IH]; cbn [ext_then]; [discriminate|].
  destruct (starts_with e x && at_end (drop (String.length e) x)) eqn:E;
    [|exact IH].
  intros _. apply andb_true_iff in E. destruct E as [Hs Ht].
  rewrite (starts_with_split _ _ Hs). unfold no_dot in *. rewrite sforall_app, He.
  destruct (at_end_cases _ Ht) as [-> | ->]; reflexivity.
Qed.

Lemma smap_app (f : ascii -> ascii) (a b : string) :
  smap f (a ++ b) = smap f a ++ smap f b.
Proof.
  induction a as [|c r IH]; cbn [String.append smap]; [reflexivity | now rewrite IH].
Qed.

(** X27.  [strip_ext] removes a final image extension, in any letter case,
    and nothing before it: a name made of a stem, a dot and one of the five
    extensions comes back as the stem. *)
Theorem strip_ext_removes_extension (stem ext : string) :
  In (lower ext) IMG_EXTS ->
  strip_ext (stem ++ "." ++ ext) = stem.
Proof.
  intro Hext.
  assert (Hdots : Forall (fun e => no_dot e = true) IMG_EXTS)
    by (unfold IMG_EXTS; repeat constructor).
  change ("." ++ ext) with (String "." ext).
  induction stem as [|c r IH].
  - cbn [String.append strip_ext lower smap].
    change (lower_char ".") with "."%char. cbn [dot_ext is_char].
    change (Ascii.eqb "." ".") with true. cbv iota. fold (lower ext).
    unfold IMG_EXTS in Hext. cbn [In] in Hext.
    repeat (destruct Hext as [<- | Hext]; [reflexivity|]). destruct Hext.
  - cbn [String.append strip_ext]. rewrite IH.
    destruct (dot_ext at_end (lower (String c (r ++ String "." ext)))) as [rest|] eqn:E;
      [exfalso | reflexivity].
    cbn [lower smap dot_ext] in E.
    destruct (is_char "." (lower_char c)); [|discriminate].
    apply (ext_then_no_dot _ _ _ Hdots) in E.
    unfold no_dot in E. rewrite smap_app, sforall_app in E.
    apply andb_true_iff in E. destruct E as [_ E]. cbn in E. discriminate.
Qed.

(** ** The image threshold and the integrity of merged records *)


(** X29.  The image of a merged record belongs to its post: whenever a
    merged record has an image URL, it also has a post URL, that post is one
    of the candidate posts, its title, labels, source and description are the
    post's, and the image is one of the post's images. *)
Theorem merged_image_belongs_to_post (post_threshold img_threshold : Q)
  (posts : list CandidatePost) (ovs : list ((string * string) * Override))
  (item : LocalRecord) (o : Outcome) (u : string) :
  merge_item post_threshold img_threshold posts ovs item = Some o ->
  m_image_url (out o) = Some u ->
  exists p im,
    In p posts /\ In im (images p) /\ u = im_url im
    /\ m_post_url (out o) = Some (post_url p)
    /\ m_post_title (out o) = Some (post_title p)
    /\ m_post_labels (out o) = Some (labels p)
    /\ m_post_source (out o) = Some (source p)
    /\ m_post_description (out o) = Some (description p).
Proof.
  assert (Himg : forall g ims b s,
             choose_image item g ims None (-1.0)%Q = Some (Some b, s) -> In b ims).
  { intros g ims b s H.
    destruct (choose_image_spec _ _ _ _ _ _ _ H)
      as [_ [(H1 & _) | (l1 & bi & l2 & Hl & H1 & _)]]; [discriminate|].
    injection H1 as <-. rewrite Hl. apply in_or_app. right. now left. }
  assert (Hsc : merge_scored post_threshold img_threshold posts item = Some o ->
                m_image_url (out o) = Some u ->
                exists p im,
                  In p posts /\ In im (images p) /\ u = im_url im
                  /\ m_post_url (out o) = Some (post_url p)
                  /\ m_post_title (out o) = Some (post_title p)
                  /\ m_post_labels (out o) = Some (labels p)
                  /\ m_post_source (out o) = Some (source p)
                  /\ m_post_description (out o) = Some (description p)).
  { unfold merge_scored.
    destruct (choose_post item posts None (-1.0)%Q) as [[bp|] bs] eqn:Hc.
    - destruct (qlt bs post_threshold).
      + intro H. injection H as <-. discriminate.
      + unfold merge_images.
        destruct (choose_image _ _ _ _ _) as [[[bi|] s]|] eqn:Hi; [| |discriminate].
        * destruct (qlt s img_threshold); intro H; injection H as <-; [discriminate|].
          cbn. intro Hu. injection Hu as <-.
          destruct (choose_post_In _ _ _ _ _ _ Hc) as [H | Hin]; [discriminate|].
          exists bp, bi. repeat split; try assumption. eapply Himg; eassumption.
        * intro H. injection H as <-. discriminate.
    - intro H. injection H as <-. discriminate. }
  unfold merge_item.
  destruct (overrides_get ovs (item_key item)) as [ov|]; [|exact Hsc].
  destruct (truthy (ov_post_url ov)); [|exact Hsc].
  unfold merge_override.
  destruct (find_post posts (ov_post_url ov)) as [cand|] eqn:Hf.
  - destruct (choose_image _ _ _ _ _) as [[[bi|] s]|] eqn:Hi; [| |discriminate].
    + intro H. injection H as <-. cbn. intro Hu. injection Hu as <-.
      destruct (find_post_In _ _ _ Hf) as [Hin _].
      exists cand, bi. repeat split; try assumption. eapply Himg; eassumption.
    + intro H. injection H as <-. discriminate.
  - intro H. injection H as <-. discriminate.
Qed.

(** *** Letter case and whitespace layout *)

Lemma lower_char_space (c : ascii) : is_space (lower_char c) = is_space c.
Proof.
  destruct c as [b0 b1 b2 b3 b4 b5 b6 b7].
  destruct b0, b1, b2, b3, b4, b5, b6, b7; vm_compute; reflexivity.
Qed.

Lemma lower_char_idempotent (c : ascii) : lower_char (lower_char c) = lower_char c.
Proof.
  destruct c as [b0 b1 b2 b3 b4 b5 b6 b7].
  destruct b0, b1, b2, b3, b4, b5, b6, b7; vm_compute; reflexivity.
Qed.

Lemma lower_idempotent (s : string) : lower (lower s) = lower s.
Proof.
  unfold lower. induction s as [|c r IH]; cbn [smap]; [reflexivity|].
  now rewrite lower_char_idempotent, IH.
Qed.

Lemma split_lower (s : string) : split (lower s) = map lower (split s).
Proof.
  unfold lower. induction s as [|c r IH]; cbn [smap split]; [reflexivity|].
  rewrite lower_char_space. destruct (is_space c); [exact IH|].
  destruct r as [|d r']; [reflexivity|].
  cbn [smap] in *. rewrite lower_char_space.
  destruct (is_space d).
  - cbn [map smap]. f_equal. exact IH.
  - rewrite IH. now destruct (split (String d r')).
Qed.

Lemma lower_join (ws : list string) :
  lower (join " " ws) = join " " (map lower ws).
Proof.
  unfold lower, join. induction ws as [|w r IH]; [reflexivity|].
  destruct r as [|w2 r'].
  - reflexivity.
  - change (String.concat " " (w :: w2 :: r'))
      with (w ++ String " " (String.concat " " (w2 :: r'))).
    rewrite smap_app. cbn [smap]. rewrite IH. reflexivity.
Qed.

Lemma normalize_lower (s : string) : normalize (lower s) = lower (normalize s).
Proof.
  now rewrite !normalize_join_split, split_lower, lower_join.
Qed.

(** X30.  The two similarity signals ignore letter case, and the fuzzy
    ratio also ignores the layout of whitespace: lower-casing or normalising
    either argument changes neither [fuzzy] nor (for lower-casing)
    [jaccard]. *)
Theorem similarity_ignores_case_and_layout (a b : string) :
  fuzzy (lower a) b = fuzzy a b
  /\ fuzzy a (lower b) = fuzzy a b
  /\ fuzzy (normalize a) b = fuzzy a b
  /\ fuzzy a (normalize b) = fuzzy a b
  /\ jaccard (lower a) b = jaccard a b
  /\ jaccard a (lower b) = jaccard a b.
Proof.
  assert (Hn : forall s, normalize (normalize s) = normalize s).
  { intro s. rewrite !normalize_join_split.
    now rewrite (split_join_words _ (split_words s)). }
  unfold fuzzy, jaccard, tokens.
  rewrite !normalize_lower, !lower_idempotent, !Hn. repeat split.
Qed.

End Engine.

(** ** Overrides *)


(** ** The engine on the sample data *)






(** C5 as stated fails: the entry and the post both carry part number 0,
    non-null and equal, and the score has no part bonus. *)
Lemma part_zero_gets_no_bonus :
  extract_part_number
    (l_folder Scenario.part0_item ++ " " ++ l_title Scenario.part0_item) = Some 0
  /\ post_part (make_post Scenario.part0_entry) = Some 0
  /\ pbonus (snd (post_score PyLib.ratio Scenario.part0_item
                    (make_post Scenario.part0_entry))) = 0%Q
  /\ ~ (fst (post_score PyLib.ratio Scenario.part0_item
               (make_post Scenario.part0_entry))
        == post_score_formula PyLib.ratio part_bonus_non_null Scenario.part0_item
             (make_post Scenario.part0_entry))%Q.
Proof.
  repeat split; try (vm_compute; reflexivity).
  intro H. apply Qeq_bool_iff in H. vm_compute in H. discriminate.
Qed.

(** C6 as stated fails: two records whose post URLs differ only in the query
    string, equal once query and fragment are stripped, make two candidate
    posts. *)
Lemma query_string_splits_posts :
  strip_query_fragment Scenario.plain_url = strip_query_fragment Scenario.mobile_url
  /\ map (fun p => (post_url p, map im_url (images p)))
       (build_posts PyLib.urlparse Scenario.query_meta)
     = [(Scenario.plain_url, ["https://1.bp.blogspot.com/a/one.jpg"]);
        (Scenario.mobile_url, ["https://1.bp.blogspot.com/a/two.jpg"])].
Proof.
  split; vm_compute; reflexivity.
Qed.

(** The images of the Ghats post are in order. *)
Lemma images_sorted_witness :
  In (make_post (Scenario.ghats_url,
                 {| pe_post_title := "Varanasi Ghats 1911";
                    pe_post_date := "March 1911";
                    pe_labels := ["1910s"; "Varanasi"];
                    pe_source := "British Library";
                    pe_description := "Ghats on the Ganges";
                    pe_images :=
                      [image_of_row
                         (Scenario.ghats_row 3 "https://1.bp.blogspot.com/x/s1600/ghats03.jpg");
                       image_of_row
                         (Scenario.ghats_row 7 "https://1.bp.blogspot.com/x/s0/b.jpg")] |}))
     (build_posts PyLib.urlparse Scenario.ghats_meta)
  /\ StronglySorted image_le
       [image_of_row (Scenario.ghats_row 3 "https://1.bp.blogspot.com/x/s1600/ghats03.jpg");
        image_of_row (Scenario.ghats_row 7 "https://1.bp.blogspot.com/x/s0/b.jpg")].
Proof.
  assert (Hin : In (make_post (Scenario.ghats_url,
                 {| pe_post_title := "Varanasi Ghats 1911";
                    pe_post_date := "March 1911";
                    pe_labels := ["1910s"; "Varanasi"];
                    pe_source := "British Library";
                    pe_description := "Ghats on the Ganges";
                    pe_images :=
                      [image_of_row
                         (Scenario.ghats_row 3 "https://1.bp.blogspot.com/x/s1600/ghats03.jpg");
                       image_of_row
                         (Scenario.ghats_row 7 "https://1.bp.blogspot.com/x/s0/b.jpg")] |}))
     (build_posts PyLib.urlparse Scenario.ghats_meta)).
  { vm_compute. left. reflexivity. }
  split; [exact Hin|].
  exact (proj1 (images_sorted PyLib.urlparse Scenario.ghats_meta _ Hin)).
Defined.

(** C7 as stated fails: in one post, the image without position comes before
    the image at position 1000000. *)
Lemma zero_position_before_large :
  map (fun p => map (fun im => (im_pos im, im_url im)) (images p))
    (build_posts PyLib.urlparse Scenario.far_meta)
  = [[(0, "https://1.bp.blogspot.com/a/none.jpg");
      (1000000, "https://1.bp.blogspot.com/a/far.jpg")]].
Proof.
  vm_compute. reflexivity.
Qed.


(** The forced row selects the seventh image of the Ghats post, with
    confidence 1.0; without overrides the filename numeral selects the third. *)
Example forced_override_selects_image :
  option_map (fun o => (outcome_class o, m_image_url (out o),
                        Qred (match_confidence (out o))))
    (merge_item PyLib.ratio PyLib.urlparse PyLib.path_name 0.5%Q 0.32%Q
       (build_posts PyLib.urlparse Scenario.ghats_meta)
       (load_overrides Scenario.forced_rows) Scenario.ghats_item)
  = Some ("matched", Some "https://1.bp.blogspot.com/x/s0/b.jpg", 1%Q)
  /\ option_map (fun o => (outcome_class o, m_image_url (out o),
                           Qred (match_confidence (out o))))
       (merge_item PyLib.ratio PyLib.urlparse PyLib.path_name 0.5%Q 0.32%Q
          (build_posts PyLib.urlparse Scenario.ghats_meta) [] Scenario.ghats_item)
     = Some ("matched", Some "https://1.bp.blogspot.com/x/s1600/ghats03.jpg", 1%Q).
Proof.
  split; vm_compute; reflexivity.
Qed.

(** The breakdown of the specification's first scenario: full Jaccard
    similarity after the synonym fold, date boost 0.15, decade boost 0.06. *)
Example ghats_breakdown :
  option_map (fun p => let b := snd (post_score PyLib.ratio Scenario.ghats_item p) in
                       (Qred (jac b), Qred (dy b), Qred (dboost b), Qred (lob b),
                        Qred (pbonus b)))
    (hd_error (build_posts PyLib.urlparse Scenario.ghats_meta))
  = Some (1%Q, (3 # 20)%Q, (3 # 50)%Q, (4 # 25)%Q, 0%Q).
Proof.
  vm_compute. reflexivity.
Qed.

(** A whole run over two copies of the Ghats entry and one entry without any
    plausible post: two matched, one for review. *)
Example sample_run_counters :
  option_map (fun r => (matched r, unmatched r, List.length (merged r),
                        map rv_reason (review_rows r)))
    (merge PyLib.ratio PyLib.urlparse PyLib.path_name 0.5%Q 0.32%Q
       Scenario.ghats_meta Scenario.forced_rows
       [Scenario.ghats_item; Scenario.part0_item; Scenario.ghats_item])
  = Some (2%nat, 1%nat, 3%nat, ["post_low_confidence"]).
Proof.
  vm_compute. reflexivity.
Qed.

(** ** Further runs on the sample data *)

Lemma extract_part_number_range_witness :
  extract_part_number "Delhi Durbar - Part 12" = Some 12 /\ 0 <= 12 <= 99.
Proof.
  split; [vm_compute; reflexivity|].
  apply (extract_part_number_range "Delhi Durbar - Part 12" 12).
  vm_compute. reflexivity.
Defined.

Lemma number_from_orig_filename_range_witness :
  number_from_orig_filename "ghats03.jpg" = Some 3 /\ 0 <= 3 <= 999.
Proof.
  split; [vm_compute; reflexivity|].
  apply (number_from_orig_filename_range "ghats03.jpg" 3).
  vm_compute. reflexivity.
Defined.

Lemma image_score_bounds_witness :
  exists q,
    image_score PyLib.urlparse PyLib.path_name Scenario.ghats_item
      {| im_url := "https://1.bp.blogspot.com/x/s1600/ghats03.jpg";
         im_alt := ""; im_caption := ""; im_pos := 3 |} (Some 3) = Some q
    /\ (0 <= q)%Q /\ (q <= 1.34)%Q.
Proof.
  destruct (image_score PyLib.urlparse PyLib.path_name Scenario.ghats_item
              {| im_url := "https://1.bp.blogspot.com/x/s1600/ghats03.jpg";
                 im_alt := ""; im_caption := ""; im_pos := 3 |} (Some 3))
    as [q|] eqn:E; [|vm_compute in E; discriminate].
  exists q. split; [reflexivity|].
  destruct (image_score_bounds PyLib.urlparse PyLib.path_name _ _ _ _ E)
    as (H0 & H1 & _).
  now split.
Defined.

Lemma choose_image_first_maximum_witness :
  exists b s,
    choose_image PyLib.urlparse PyLib.path_name Scenario.ghats_item (Some 3)
      (images Scenario.ghats_post) None (-1.0)%Q = Some (b, s)
    /\ forall im, In im (images Scenario.ghats_post) ->
                  exists q, image_score PyLib.urlparse PyLib.path_name
                              Scenario.ghats_item im (Some 3) = Some q
                            /\ (q <= s)%Q.
Proof.
  destruct (choose_image PyLib.urlparse PyLib.path_name Scenario.ghats_item (Some 3)
              (images Scenario.ghats_post) None (-1.0)%Q)
    as [[b s]|] eqn:E; [|vm_compute in E; discriminate].
  exists b, s. split; [reflexivity|].
  exact (proj1 (choose_image_first_maximum PyLib.urlparse PyLib.path_name
                  _ _ _ _ _ E)).
Defined.

Lemma post_images_are_group_witness :
  In Scenario.ghats_post (build_posts PyLib.urlparse Scenario.ghats_meta)
  /\ images Scenario.ghats_post
     = sort_images
         (map image_of_row
            (group_of PyLib.urlparse Scenario.ghats_meta
               (post_url Scenario.ghats_post))).
Proof.
  assert (Hin : In Scenario.ghats_post
                   (build_posts PyLib.urlparse Scenario.ghats_meta))
    by (vm_compute; left; reflexivity).
  split; [exact Hin|].
  exact (proj1 (post_images_are_group PyLib.ratio PyLib.urlparse PyLib.path_name
                  Scenario.ghats_meta _ Hin)).
Defined.

Lemma post_fields_first_wins_witness :
  In Scenario.ghats_post (build_posts PyLib.urlparse Scenario.ghats_meta)
  /\ post_title Scenario.ghats_post
     = first_truthy
         (map (fun r => normalize (r_post_title r))
            (group_of PyLib.urlparse Scenario.ghats_meta
               (post_url Scenario.ghats_post))).
Proof.
  assert (Hin : In Scenario.ghats_post
                   (build_posts PyLib.urlparse Scenario.ghats_meta))
    by (vm_compute; left; reflexivity).
  split; [exact Hin|].
  exact (proj1 (post_fields_first_wins PyLib.ratio PyLib.urlparse PyLib.path_name
                  Scenario.ghats_meta _ Hin)).
Defined.

Lemma matched_passed_both_gates_witness :
  exists o,
    merge_scored PyLib.ratio PyLib.urlparse PyLib.path_name 0.5%Q 0.32%Q
      (build_posts PyLib.urlparse Scenario.ghats_meta) Scenario.ghats_item = Some o
    /\ outcome_class o = "matched"
    /\ exists bp bi bs s,
         choose_post PyLib.ratio Scenario.ghats_item
           (build_posts PyLib.urlparse Scenario.ghats_meta) None (-1.0)%Q
         = (Some bp, bs)
         /\ (0.5 <= bs)%Q
         /\ image_score PyLib.urlparse PyLib.path_name Scenario.ghats_item bi
              (number_from_orig_filename (l_orig_filename Scenario.ghats_item))
            = Some s
         /\ (0.32 <= s)%Q.
Proof.
  destruct (merge_scored PyLib.ratio PyLib.urlparse PyLib.path_name 0.5%Q 0.32%Q
              (build_posts PyLib.urlparse Scenario.ghats_meta) Scenario.ghats_item)
    as [o|] eqn:E; [|vm_compute in E; discriminate].
  assert (Hc : outcome_class o = "matched").
  { pose proof E as E'. vm_compute in E'. injection E' as <-. reflexivity. }
  exists o. split; [reflexivity|]. split; [exact Hc|].
  destruct (matched_passed_both_gates PyLib.ratio PyLib.urlparse PyLib.path_name
              _ _ _ _ _ E Hc)
    as (bp & bi & bs & s & H1 & _ & H2 & _ & _ & H3 & H4 & _).
  exists bp, bi, bs, s. repeat split; assumption.
Defined.

Lemma strip_ext_removes_extension_witness :
  In (lower "JPG") IMG_EXTS /\ strip_ext ("ghats03" ++ "." ++ "JPG") = "ghats03".
Proof.
  assert (H : In (lower "JPG") IMG_EXTS) by (vm_compute; left; reflexivity).
  split; [exact H|].
  exact (strip_ext_removes_extension "ghats03" "JPG" H).
Defined.


Lemma merged_image_belongs_to_post_witness :
  exists o u,
    merge_item PyLib.ratio PyLib.urlparse PyLib.path_name 0.5%Q 0.32%Q
      (build_posts PyLib.urlparse Scenario.ghats_meta)
      (load_overrides Scenario.forced_rows) Scenario.ghats_item = Some o
    /\ m_image_url (out o) = Some u
    /\ exists p im,
         In p (build_posts PyLib.urlparse Scenario.ghats_meta)
         /\ In im (images p) /\ u = im_url im
         /\ m_post_url (out o) = Some (post_url p).
Proof.
  destruct (merge_item PyLib.ratio PyLib.urlparse PyLib.path_name 0.5%Q 0.32%Q
              (build_posts PyLib.urlparse Scenario.ghats_meta)
              (load_overrides Scenario.forced_rows) Scenario.ghats_item)
    as [o|] eqn:E; [|vm_compute in E; discriminate].
  assert (Hu : m_image_url (out o) = Some "https://1.bp.blogspot.com/x/s0/b.jpg").
  { pose proof E as E'. vm_compute in E'. injection E' as <-. reflexivity. }
  exists o, "https://1.bp.blogspot.com/x/s0/b.jpg".
  split; [reflexivity|]. split; [exact Hu|].
  destruct (merged_image_belongs_to_post PyLib.ratio PyLib.urlparse PyLib.path_name
              _ _ _ _ _ _ _ E Hu)
    as (p & im & H1 & H2 & H3 & H4 & _).
  exists p, im. repeat split; assumption.
Defined.
